(** * Transcript aggregation and session authorization of the voice demo

    A shallow embedding of
    - [src/components/VoiceAgentDemo.tsx]: the message ledger
      ([messages]), the per-turn chunk store ([userChunksByTurn]) and the
      handlers that update them;
    - [src/app/api/authorize/route.ts]: the [POST] handler.

    React state is modelled by explicit state passing: every handler is a
    function from the controller state to the controller state.  The
    functional updaters given to [setMessages] are pure, so applying them
    at once is what React computes. *)

From Stdlib Require Import ZArith Ascii String List Lia DecimalString.
From stdpp Require Import base gmap strings list sorting fin_maps.


(** ** JavaScript values used by the handlers *)

(** A JavaScript number as the counters use it.  The data model has integer
    counters, so a number is an integer or [NaN] (what [Number] returns for a
    string that is not a numeric literal).  Fractions and the infinities are
    outside the model. *)
Inductive JsNum : Type :=
  | Num (z : Z)
  | NaN.

#[global] Instance JsNum_eq_dec : EqDecision JsNum.
Proof. solve_decision. Defined.

(** [a - b] on numbers: any [NaN] operand gives [NaN].  The sort below only
    looks at the sign of the difference, which the subtraction of two integer
    doubles always gives right. *)
Definition js_sub (a b : JsNum) : JsNum :=
  match a, b with
  | Num x, Num y => Num (x - y)%Z
  | _, _ => NaN
  end.

Definition is_num (n : JsNum) : Prop :=
  match n with Num _ => True | NaN => False end.

(** The two coercions of the language that the handlers call: [Number(s)] on a
    string and [String(n)] on a number.  They belong to the runtime, not to the
    repository, so the development is parametric in them. *)
Class JsRuntime : Type := {
  Number : string → JsNum;
  String_ : JsNum → string
}.

(** Truthiness of an optional string: [undefined] and [''] are falsy. *)
Definition truthy (s : option string) : bool :=
  match s with
  | Some s => negb (String.eqb s "")
  | None => false
  end.

(** [s.includes(sub)] *)
Fixpoint includes (s sub : string) : bool :=
  String.prefix sub s ||
  match s with
  | EmptyString => false
  | String _ s' => includes s' sub
  end.

(** [xs.join('')] *)
Definition join (xs : list string) : string := String.concat "" xs.

(** ** [Map]: insertion-ordered, keys compared by SameValueZero

    [entries()] lists a [Map] in insertion order and [set] on a key already
    present keeps its place, so the inner [Map<number, string>] is an
    association list without repeated keys.  The outer [Map<string, ...>] is
    only read by key ([get], [set], [delete], [clear]) and is a [gmap]. *)
Abbreviation JsMap K V := (list (K * V)).

Fixpoint Map_set {K V} `{EqDecision K} (k : K) (v : V) (m : JsMap K V) : JsMap K V :=
  match m with
  | [] => [(k, v)]
  | (k', v') :: m' =>
      if decide (k' = k) then (k', v) :: m' else (k', v') :: Map_set k v m'
  end.

(** ** [Array.prototype.sort] with a comparator

    A stable insertion sort: [x] moves behind [y] only when the comparator is
    positive; a [NaN] result counts as [0], as the language defines.  With a
    comparator that is not a consistent order (a [NaN] key) the language leaves
    the order to the implementation; theorems about the order assume numeric
    keys. *)
Definition positive_result (v : JsNum) : bool :=
  match v with
  | Num z => bool_decide (0 < z)%Z
  | NaN => false
  end.

Fixpoint sort_insert {A} (cmp : A → A → JsNum) (x : A) (l : list A) : list A :=
  match l with
  | [] => [x]
  | y :: l' =>
      if positive_result (cmp x y) then y :: sort_insert cmp x l' else x :: l
  end.

Definition Array_sort {A} (cmp : A → A → JsNum) (l : list A) : list A :=
  foldr (sort_insert cmp) [] l.

(** ** Data model of the component *)

Inductive Role : Type := user | assistant | system.

#[global] Instance Role_eq_dec : EqDecision Role.
Proof. solve_decision. Defined.

Record TranscriptChunk : Type := {
  counter : JsNum;
  chunk_text : string
}.

Record Message : Type := {
  role : Role;
  text : string;
  turnId : option string;
  chunks : option (list TranscriptChunk)
}.

(** [turn_id?: string | number] and [delta_counter?: number | string] *)
Inductive StrOrNum : Type :=
  | Str (s : string)
  | Nbr (n : JsNum).

Record AgentEvent : Type := {
  type : option string;
  turn_id : option StrOrNum;
  delta_counter : option StrOrNum;
  content : option string
}.

Record State : Type := {
  messages : list Message;
  userChunksByTurn : gmap string (JsMap JsNum string);
  isSessionActive : bool;
  error : option string
}.

Definition initial : State :=
  {| messages := []; userChunksByTurn := ∅; isSessionActive := false; error := None |}.

Definition setMessages (f : list Message → list Message) (st : State) : State :=
  {| messages := f (messages st); userChunksByTurn := userChunksByTurn st;
     isSessionActive := isSessionActive st; error := error st |}.

Definition setChunks (f : gmap string (JsMap JsNum string) → gmap string (JsMap JsNum string))
    (st : State) : State :=
  {| messages := messages st; userChunksByTurn := f (userChunksByTurn st);
     isSessionActive := isSessionActive st; error := error st |}.

Definition setIsSessionActive (b : bool) (st : State) : State :=
  {| messages := messages st; userChunksByTurn := userChunksByTurn st;
     isSessionActive := b; error := error st |}.

Definition setError (e : option string) (st : State) : State :=
  {| messages := messages st; userChunksByTurn := userChunksByTurn st;
     isSessionActive := isSessionActive st; error := e |}.

(** ** The message ledger *)

Definition system_message (t : string) : Message :=
  {| role := system; text := t; turnId := None; chunks := None |}.

Definition appendSystemMessage (t : string) : State → State :=
  setMessages (λ prev, prev ++ [system_message t]).

(** The predicate of [upsertMessage]:
    [msg.turnId === next.turnId && msg.role === next.role]. *)
Definition same_key (tid : option string) (r : Role) (msg : Message) : Prop :=
  turnId msg = tid ∧ role msg = r.

#[global] Instance same_key_dec tid r msg : Decision (same_key tid r msg).
Proof. unfold same_key. apply _. Defined.

(** The object written at [copy[index]]. *)
Definition merged (replace : bool) (current next : Message) : Message :=
  {| role := role current;
     text := if replace then text next else text current +:+ text next;
     turnId := turnId current;
     chunks := match chunks next with
               | Some c => Some c
               | None => chunks current
               end |}.

(** The updater of [upsertMessage].  [list_find] gives the first index that
    satisfies the predicate, as [findIndex] does, together with the element
    there, the [current] read from [copy[index]]; [None] stands for [-1]. *)
Definition upsert (next : Message) (replace : bool) (prev : list Message) : list Message :=
  if negb (truthy (turnId next)) then prev ++ [next]
  else
    match list_find (same_key (turnId next) (role next)) prev with
    | None => prev ++ [next]
    | Some (index, current) => <[index := merged replace current next]> prev
    end.

Definition upsertMessage (next : Message) (replace : bool) : State → State :=
  setMessages (upsert next replace).

(** ** The chunk store and the aggregator *)

(** The comparator [([a], [b]) => a - b] and the map
    [([c, text]) => ({ counter: c, text })] of the reassembly. *)
Definition by_counter (a b : JsNum * string) : JsNum := js_sub a.1 b.1.

Definition entry_chunk (e : JsNum * string) : TranscriptChunk :=
  {| counter := e.1; chunk_text := e.2 |}.

Definition clearTurn (turnId : string) : State → State :=
  setChunks (delete turnId).

Section Handlers.
Context `{JsRuntime}.

(** [event.turn_id != null ? String(event.turn_id) : undefined] *)
Definition turnId_of (event : AgentEvent) : option string :=
  match turn_id event with
  | Some (Str s) => Some s
  | Some (Nbr n) => Some (String_ n)
  | None => None
  end.

(** [typeof event.content === 'string' ? event.content : ''] *)
Definition content_of (event : AgentEvent) : string :=
  default "" (content event).

(** [typeof rawCounter === 'number' ? rawCounter
     : rawCounter != null ? Number(rawCounter) : undefined] *)
Definition counter_of (event : AgentEvent) : option JsNum :=
  match delta_counter event with
  | Some (Nbr n) => Some n
  | Some (Str s) => Some (Number s)
  | None => None
  end.

(** [[...turnMap.entries()].sort(([a], [b]) => a - b)
      .map(([c, text]) => ({ counter: c, text }))] *)
Definition sorted_chunks (turnMap : JsMap JsNum string) : list TranscriptChunk :=
  entry_chunk <$> Array_sort by_counter turnMap.

(** The branch taken when [!turnId || counter === undefined]. *)
Definition replace_transcript (turnId : option string) (content : string)
    (st : State) : State :=
  let st := match turnId with
            | Some tid => if truthy turnId then clearTurn tid st else st
            | None => st
            end in
  upsertMessage
    {| role := user; turnId := turnId; text := content; chunks := Some [] |}
    true st.

(** The rest of the body: record the chunk, reassemble, upsert. *)
Definition record_chunk (tid : string) (counter : JsNum) (content : string)
    (st : State) : State :=
  let turnMap := default [] (userChunksByTurn st !! tid) in
  let turnMap := Map_set counter content turnMap in
  let st := setChunks (<[tid := turnMap]>) st in
  let chunks := sorted_chunks turnMap in
  let aggregatedText := join (chunk_text <$> chunks) in
  upsertMessage
    {| role := user; turnId := Some tid; text := aggregatedText; chunks := Some chunks |}
    true st.

(** [if (!turnId || counter === undefined) { ...; return; }] and the rest of
    the body.  The first branch is the only one where both values are there to
    be used. *)
Definition updateUserTranscript (event : AgentEvent) (st : State) : State :=
  let turnId := turnId_of event in
  let content := content_of event in
  match turnId, counter_of event with
  | Some tid, Some counter =>
      if truthy turnId then record_chunk tid counter content st
      else replace_transcript turnId content st
  | _, _ => replace_transcript turnId content st
  end.

Definition appendAssistantMessage (event : AgentEvent) : State → State :=
  upsertMessage
    {| role := assistant; turnId := turnId_of event;
       text := content_of event; chunks := None |}
    false.

(** The guard [type === 'turn.end' && evt.turn_id != null] holds exactly when
    the inner [match] finds [Some tid], and [tid] is then
    [String(evt.turn_id)]. *)
Definition handleAgentMessage (evt : AgentEvent) (st : State) : State :=
  if negb (truthy (type evt)) then st
  else
    match (if bool_decide (type evt = Some "turn.end") then turnId_of evt else None) with
    | Some tid => clearTurn tid st
    | None =>
        if bool_decide (type evt = Some "user.transcript.delta")
           || bool_decide (type evt = Some "user.transcript.interim_delta")
        then updateUserTranscript evt st
        else if bool_decide (type evt = Some "response.text")
        then appendAssistantMessage evt st
        else st
    end.

(** ** Session lifecycle callbacks *)

Definition onConnect (st : State) : State :=
  appendSystemMessage "Connected" (setIsSessionActive true st).

Definition onDisconnect (st : State) : State :=
  appendSystemMessage "Disconnected"
    (setChunks (λ _, ∅) (setIsSessionActive false st)).

Definition insufficient_funds_text : string :=
  "Your organization has insufficient funds. Please add funds to your Layercode account to continue.".

Definition onError (errorMessage : string) (st : State) : State :=
  if includes errorMessage "insufficient_balance" || includes errorMessage "402"
  then setError (Some insufficient_funds_text) st
  else setMessages (λ prev, prev ++ [system_message ("Error: " +:+ errorMessage)]) st.

(** [handleConnectClick] up to [await connect()].  [isConnecting] is
    [status === 'connecting'], a value of the SDK hook. *)
Definition handleConnectClick (isConnecting : bool) (st : State) : State :=
  let canConnect := negb (isSessionActive st) && negb isConnecting in
  if negb canConnect then st
  else setError None (setMessages (λ _, []) (setChunks (λ _, ∅) st)).

(** The [catch] branch of [handleConnectClick]. *)
Definition connect_failed (errorMessage : string) : State → State :=
  setMessages (λ _, [system_message ("Failed to connect: " +:+ errorMessage)]).

(** What can happen to the controller, one callback at a time. *)
Inductive Action : Type :=
  | OnMessage (evt : AgentEvent)
  | OnConnect
  | OnDisconnect
  | OnError (errorMessage : string)
  | ConnectClick (isConnecting : bool)
  | ConnectFailed (errorMessage : string).

Definition step (a : Action) (st : State) : State :=
  match a with
  | OnMessage evt => handleAgentMessage evt st
  | OnConnect => onConnect st
  | OnDisconnect => onDisconnect st
  | OnError m => onError m st
  | ConnectClick c => handleConnectClick c st
  | ConnectFailed m => connect_failed m st
  end.

Definition run (acts : list Action) (st : State) : State :=
  foldl (λ st a, step a st) st acts.

End Handlers.

(** ** A runtime instance for decimal literals

    [Number] reads an optional sign followed by decimal digits, and [''] as
    [0]; any other string is [NaN].  [String] writes an integer in decimal and
    [NaN] as ['NaN'].  Both agree with the language on integers of magnitude
    below [2^53] written without blanks, fraction, exponent or radix prefix,
    and on text that has no numeric reading at all, such as ['abc']. *)
Definition decimal_Number (s : string) : JsNum :=
  match s with
  | EmptyString => Num 0
  | String "+"%char s' =>
      match NilZero.uint_of_string s' with
      | Some d => Num (Z.of_uint d)
      | None => NaN
      end
  | _ =>
      match NilZero.int_of_string s with
      | Some d => Num (Z.of_int d)
      | None => NaN
      end
  end.

Definition decimal_String (n : JsNum) : string :=
  match n with
  | Num z => NilZero.string_of_int (Z.to_int z)
  | NaN => "NaN"
  end.

Definition decimal_runtime : JsRuntime :=
  {| Number := decimal_Number; String_ := decimal_String |}.

(** ** The authorization route

    The upstream service and the environment are inputs of the model: the
    value of [LAYERCODE_API_KEY], what [request.json()] gives, and what the
    [fetch] of the upstream endpoint does. *)

(** The parsed request body, as far as the handler looks at it. *)
Record RequestBody : Type := {
  agent_id : option string
}.

(** [request.json()]: a parse error, [null], or an object. *)
Inductive RequestJson : Type :=
  | JsonRejects (message : string)
  | JsonNull
  | JsonObject (body : RequestBody).

(** A parsed JSON value, which the handler never looks into.  [Parsed v] is
    the value that [response.json()] resolves to, not the text of the body:
    what parsing loses (digits of a number beyond double precision, white
    space, all but the last of repeated keys) is lost before the handler has
    the value, and [v] only names the value. *)
Inductive JsonValue : Type :=
  | Parsed (v : string).

(** What the exchange with the upstream service does: [fetch] or the reading
    of the body rejects, the response is not ok, the response is ok with a
    body that is not JSON, or the response is ok and [response.json()] gives
    a value. *)
Inductive Upstream : Type :=
  | FetchRejects (message : string)
  | NotOk (responseText statusText : string)
  | OkBadJson (message : string)
  | OkJson (value : JsonValue).

(** The object given to [NextResponse.json], which serialises it: an error
    object, or the value parsed from the upstream body. *)
Inductive ResponseBody : Type :=
  | ErrorBody (error : string)
  | Payload (value : JsonValue).

Inductive Outcome : Type :=
  | Throws (message : string)
  | Response (status : Z) (body : ResponseBody).

(** [text || response.statusText] *)
Definition or_else (a b : string) : string :=
  if truthy (Some a) then a else b.

(** The [try] block: either a response or the error thrown inside it. *)
Definition exchange (up : Upstream) : string + Outcome :=
  match up with
  | FetchRejects m => inl m
  | NotOk t statusText => inl (or_else t statusText)
  | OkBadJson m => inl m
  | OkJson value => inr (Response 200 (Payload value))
  end.

Definition POST (apiKey : option string) (body : RequestJson) (up : Upstream) : Outcome :=
  if negb (truthy apiKey) then Throws "LAYERCODE_API_KEY is not set."
  else
    match body with
    | JsonRejects m => Throws m
    | JsonNull => Throws "Missing agent_id in request body."
    | JsonObject requestBody =>
        if negb (truthy (agent_id requestBody))
        then Throws "Missing agent_id in request body."
        else
          match exchange up with
          | inr r => r
          | inl message =>
              if truthy (Some message) && includes message "insufficient_balance"
              then Response 402 (ErrorBody "insufficient_balance")
              else Response 500 (ErrorBody message)
          end
    end.


(** ** Reading the ledger *)

(** The user message of a turn: the first message with that key. *)
Definition transcript (tid : string) (msgs : list Message) : option Message :=
  snd <$> list_find (same_key (Some tid) user) msgs.

(** [evt] with its [turn_id] replaced. *)
Definition with_turn_id (v : StrOrNum) (evt : AgentEvent) : AgentEvent :=
  {| type := type evt; turn_id := Some v;
     delta_counter := delta_counter evt; content := content evt |}.

Definition is_delta (evt : AgentEvent) : Prop :=
  type evt = Some "user.transcript.delta"
  ∨ type evt = Some "user.transcript.interim_delta".

(** A [user.transcript.delta] event. *)
Definition delta (turn : option StrOrNum) (c : option StrOrNum) (x : string) : AgentEvent :=
  {| type := Some "user.transcript.delta"; turn_id := turn;
     delta_counter := c; content := Some x |}.

(** ** What the specification says, for comparison with the code *)

(** The most recent match: the match with the greatest index. *)
Fixpoint find_last {A} (P : A → Prop) `{!∀ x, Decision (P x)} (l : list A)
    : option (nat * A) :=
  match l with
  | [] => None
  | x :: l' =>
      match find_last P l' with
      | Some (i, y) => Some (S i, y)
      | None => if decide (P x) then Some (0, x) else None
      end
  end.

(** The ledger operation in the words of the specification: locate the most
    recent message with the key of [next], overwrite it in place, or append
    when there is none or when [next] has no turn id.  [has_turn] says when a
    turn id counts as present. *)
Definition upsert_most_recent (has_turn : option string → bool)
    (next : Message) (replace : bool) (prev : list Message) : list Message :=
  if has_turn (turnId next) then
    match find_last (same_key (turnId next) (role next)) prev with
    | Some (i, current) => <[i := merged replace current next]> prev
    | None => prev ++ [next]
    end
  else prev ++ [next].

(** A turn id is present when it is not null. *)
Definition non_null (s : option string) : bool :=
  match s with Some _ => true | None => false end.

(** Ascending counter order; [NaN] is in no order with anything. *)
Definition chunk_lt (a b : TranscriptChunk) : Prop :=
  match counter a, counter b with
  | Num x, Num y => (x < y)%Z
  | _, _ => False
  end.

Definition entry_lt (a b : JsNum * string) : Prop :=
  chunk_lt (entry_chunk a) (entry_chunk b).

(** A counter of the specification as an entry of the [Map]. *)
Definition numbered (kv : Z * string) : JsNum * string := (Num kv.1, kv.2).

Definition numeric_chunks (cs : list TranscriptChunk) : Prop :=
  Forall (λ c, is_num (counter c)) cs.

(** The text of a message is the concatenation of its chunks, which stand in
    ascending counter order. *)
Definition aggregated (m : Message) : Prop :=
  ∃ cs, chunks m = Some cs
        ∧ text m = join (chunk_text <$> cs)
        ∧ (numeric_chunks cs → StronglySorted chunk_lt cs).

(** A user message is either a replacement, without chunks, or aggregated. *)
Definition user_aggregated (m : Message) : Prop :=
  role m = user → chunks m = Some [] ∨ aggregated m.

(** No two messages share a key with a usable turn id. *)
Definition keys_unique (l : list Message) : Prop :=
  ∀ i j mi mj, l !! i = Some mi → l !! j = Some mj →
    truthy (turnId mi) = true → same_key (turnId mi) (role mi) mj → i = j.

(** What every reachable state of the controller satisfies. *)
Definition invariant (st : State) : Prop :=
  keys_unique (messages st)
  ∧ Forall user_aggregated (messages st)
  ∧ map_Forall (λ _ turnMap, NoDup turnMap.*1) (userChunksByTurn st).

(** The chunk store of one turn as the specification describes it: a mapping
    from counter to text where a later chunk overwrites an earlier one, and a
    reassembly that lists it in ascending counter order. *)
Definition recordChunk (m : gmap Z string) (kv : Z * string) : gmap Z string :=
  <[kv.1 := kv.2]> m.

Definition counter_le (a b : Z * string) : Prop := (a.1 ≤ b.1)%Z.

#[global] Instance counter_le_dec a b : Decision (counter_le a b).
Proof. unfold counter_le. apply _. Defined.

Definition reassemble (m : gmap Z string) : list (Z * string) :=
  merge_sort counter_le (map_to_list m).

Definition reassembled_text (deltas : list (Z * string)) : string :=
  join ((reassemble (foldl recordChunk ∅ deltas)).*2).

(** [evt] is a delta of turn [tid] whose counter is the number [kv.1] and
    whose content is [kv.2]. *)
Definition delta_of `{JsRuntime} (tid : string) (evt : AgentEvent)
    (kv : Z * string) : Prop :=
  is_delta evt ∧ turnId_of evt = Some tid
  ∧ counter_of evt = Some (Num kv.1) ∧ content_of evt = kv.2.

(** The entries of a turn's [Map] after the deltas, counters as integers. *)
Definition entries_after (l0 deltas : list (Z * string)) : list (Z * string) :=
  foldl (λ l kv, Map_set kv.1 kv.2 l) l0 deltas.

(** The user message that the aggregator writes for the entries [turnMap]. *)
Definition message_of (tid : string) (turnMap : JsMap JsNum string) : Message :=
  {| role := user; text := join (chunk_text <$> sorted_chunks turnMap);
     turnId := Some tid; chunks := Some (sorted_chunks turnMap) |}.

(** ** The knowledge base ([src/lib/knowledge.ts]) *)

Record Faq : Type := {
  question : string;
  answer : string
}.

Record KnowledgeBase : Type := {
  companyName : string;
  companyDescription : string;
  faqs : list Faq;
  productInfo : string;
  supportInfo : string
}.

(** The static content.  The template literals of the source hold line breaks,
    kept here as they are. *)
Definition getKnowledgeBase : KnowledgeBase :=
  {| companyName := "Layercode";
     companyDescription := "Layercode is a voice AI platform that makes it easy to add conversational
voice interfaces to any application. We handle the complex infrastructure of real-time audio
processing, speech recognition, and voice synthesis so developers can focus on building
great experiences.";
     faqs := [
       {| question := "What is Layercode?";
          answer := "Layercode is a voice AI platform that enables developers to add voice interfaces
to their applications. It provides SDKs for web and mobile, handles real-time audio streaming,
and integrates with popular AI models for natural conversations." |};
       {| question := "How do I get started with Layercode?";
          answer := "Getting started is simple: 1) Sign up at layercode.com and get your API key,
2) Install the Layercode SDK in your project, 3) Add the voice component to your UI,
4) Configure your webhook endpoint to receive voice events. The entire setup takes about
15 minutes for a basic integration." |};
       {| question := "What platforms does Layercode support?";
          answer := "Layercode supports web applications (React, Next.js, Vue, vanilla JS),
React Native for mobile, and server-side integrations via REST APIs. We also support
telephony for phone-based voice applications." |};
       {| question := "How does billing work?";
          answer := "Layercode offers a free tier for development and testing. Production usage
is billed based on voice minutes processed. There are no per-seat licenses or minimum
commitments. You can view detailed usage in your dashboard." |};
       {| question := "Can I use my own AI model?";
          answer := "Yes! Layercode is model-agnostic. You can use OpenAI, Anthropic, Google,
or any other AI provider. You control the AI logic in your own backend, and Layercode
handles the voice layer. This gives you full flexibility over the conversation logic." |};
       {| question := "Is Layercode secure?";
          answer := "Security is a top priority. All audio is encrypted in transit, we don't
store conversation audio by default, and you can configure data retention policies.
We're SOC 2 compliant and offer enterprise security features for larger deployments." |};
       {| question := "What's the latency like?";
          answer := "Layercode is optimized for real-time conversations. Typical end-to-end
latency (from user speech to AI response audio) is under 500ms, depending on your AI
model's response time. We use edge infrastructure to minimize network latency." |}
     ];
     productInfo := "Layercode provides:
- Web SDK: Drop-in voice components for any web application
- Real-time streaming: Sub-second latency for natural conversations
- Webhooks: Receive voice events in your serverless functions
- Transcription: Automatic speech-to-text with high accuracy
- Voice synthesis: Natural-sounding AI voices in multiple languages
- Session management: Track conversations across multiple turns
- Analytics: Monitor usage, latency, and conversation quality";
     supportInfo := "For support:
- Documentation: docs.layercode.com
- Email: support@layercode.com
- Discord community: discord.gg/layercode
- Enterprise support: Available on Business and Enterprise plans
- Status page: status.layercode.com" |}.

(** The line feed, [\n]. *)
Definition LF : string := String "010"%char "".

(** [s.trim()] on a byte string: white space and line terminators of the ASCII
    range are removed at both ends.  The prompt template begins and ends with
    a line feed next to an equals sign, so no other character is looked at. *)
Fixpoint trimStart (s : string) : string :=
  match s with
  | EmptyString => EmptyString
  | String c s' => if Ascii.is_space c then trimStart s' else s
  end.

Fixpoint trimEnd (s : string) : string :=
  match s with
  | EmptyString => EmptyString
  | String c s' =>
      match trimEnd s' with
      | EmptyString => if Ascii.is_space c then EmptyString else String c EmptyString
      | r => String c r
      end
  end.

Definition trim (s : string) : string := trimEnd (trimStart s).

(** [`Q: ${faq.question}\nA: ${faq.answer}`] *)
Definition faq_block (faq : Faq) : string :=
  "Q: " +:+ question faq +:+ LF +:+ "A: " +:+ answer faq.

Definition formatKnowledgeForPrompt (knowledge : KnowledgeBase) : string :=
  let faqSection := String.concat (LF +:+ LF) (faq_block <$> faqs knowledge) in
  trim (LF +:+
    "=== KNOWLEDGE BASE ===" +:+ LF +:+
    LF +:+
    "COMPANY: " +:+ companyName knowledge +:+ LF +:+
    LF +:+
    "ABOUT:" +:+ LF +:+
    companyDescription knowledge +:+ LF +:+
    LF +:+
    "FREQUENTLY ASKED QUESTIONS:" +:+ LF +:+
    faqSection +:+ LF +:+
    LF +:+
    "PRODUCT INFORMATION:" +:+ LF +:+
    productInfo knowledge +:+ LF +:+
    LF +:+
    "SUPPORT:" +:+ LF +:+
    supportInfo knowledge +:+ LF +:+
    LF +:+
    "=== END KNOWLEDGE BASE ===" +:+ LF).

(** ** The message bubble

    The text that [MessageBubble] puts on the screen: the chunks of a user
    message that has some, one [span] after the other, and the text of the
    message otherwise. *)
Definition bubble_content (message : Message) : string :=
  if bool_decide (role message = user)
     && negb (length (default [] (chunks message)) =? 0)
  then join (chunk_text <$> default [] (chunks message))
  else text message.

Definition MessageBubble (message : Message) : string :=
  match role message with
  | system => text message
  | user => bubble_content message
  | assistant => bubble_content message
  end.

(** The [key] of each [span]: [chunk.counter]. *)
Definition span_keys (message : Message) : list JsNum :=
  counter <$> default [] (chunks message).

(** ** Views of the state used by the further properties *)

(** The assistant message of a turn. *)
Definition reply (tid : string) (msgs : list Message) : option Message :=
  snd <$> list_find (same_key (Some tid) assistant) msgs.

(** The message that an event without a usable turn id appends. *)
Definition appended_message `{JsRuntime} (evt : AgentEvent) : Message :=
  if bool_decide (type evt = Some "response.text")
  then {| role := assistant; text := content_of evt;
          turnId := turnId_of evt; chunks := None |}
  else {| role := user; text := content_of evt;
          turnId := turnId_of evt; chunks := Some [] |}.

(** The messages of one turn, in ledger order. *)
Definition of_turn (tid : string) (msgs : list Message) : list Message :=
  filter (λ m, turnId m = Some tid) msgs.

(** The events of one turn, in arrival order. *)
Definition events_of_turn `{JsRuntime} (tid : string) (evs : list AgentEvent)
    : list AgentEvent :=
  filter (λ e, turnId_of e = Some tid) evs.

(** No chunk entry under the empty turn id, and no empty entry. *)
Definition store_well_keyed (st : State) : Prop :=
  userChunksByTurn st !! "" = None
  ∧ map_Forall (λ _ turnMap, turnMap ≠ []) (userChunksByTurn st).

(** The chunks of every message have pairwise distinct counters. *)
Definition distinct_counters (st : State) : Prop :=
  Forall (λ m, NoDup (span_keys m)) (messages st).

(** Every turn of the chunk store has its user message, written from the
    entries of the turn. *)
Definition coherent (st : State) : Prop :=
  ∀ tid turnMap, userChunksByTurn st !! tid = Some turnMap →
    transcript tid (messages st) = Some (message_of tid turnMap).

Definition is_connect_failed (a : Action) : Prop :=
  match a with ConnectFailed _ => True | _ => False end.

(** [sub] occurs in [s]. *)
Definition substring (sub s : string) : Prop :=
  ∃ pre post, s = pre +:+ sub +:+ post.

(** * Properties *)

Section Dispatcher.
Context `{JsRuntime}.

Lemma truthy_Some (s : string) : truthy (Some s) = true ↔ s ≠ "".
Proof.
  simpl. rewrite negb_true_iff. split.
  - intros E ->. by rewrite String.eqb_refl in E.
  - intros N. by apply String.eqb_neq.
Qed.

Lemma handle_delta (evt : AgentEvent) (st : State) :
  is_delta evt → handleAgentMessage evt st = updateUserTranscript evt st.
Proof.
  intros [E | E]; unfold handleAgentMessage; rewrite E; reflexivity.
Qed.

Lemma handle_turn_end (evt : AgentEvent) (tid : string) (st : State) :
  type evt = Some "turn.end" → turnId_of evt = Some tid →
  handleAgentMessage evt st = clearTurn tid st.
Proof.
  intros E T. unfold handleAgentMessage. rewrite E. simpl. by rewrite T.
Qed.

Lemma handle_response_text (evt : AgentEvent) (st : State) :
  type evt = Some "response.text" →
  handleAgentMessage evt st = appendAssistantMessage evt st.
Proof.
  intros E. unfold handleAgentMessage. rewrite E. reflexivity.
Qed.

(** C9: an event whose type is absent, or is none of the four handled types,
    leaves the whole controller state, ledger and chunk store included, as it
    was. *)
Theorem unhandled_event_is_dropped (evt : AgentEvent) (st : State) :
  type evt ≠ Some "turn.end" →
  type evt ≠ Some "user.transcript.delta" →
  type evt ≠ Some "user.transcript.interim_delta" →
  type evt ≠ Some "response.text" →
  handleAgentMessage evt st = st.
Proof.
  intros N1 N2 N3 N4. unfold handleAgentMessage.
  destruct (truthy (type evt)); simpl; [|done].
  rewrite !bool_decide_eq_false_2 by done. done.
Qed.

End Dispatcher.

(** ** The ledger operation *)

Section Ledger.
Implicit Types (next cur m : Message) (prev : list Message).

Lemma upsert_falsy next replace prev :
  truthy (turnId next) = false → upsert next replace prev = prev ++ [next].
Proof. intros E. unfold upsert. by rewrite E. Qed.

Lemma upsert_found next replace prev i cur :
  truthy (turnId next) = true →
  list_find (same_key (turnId next) (role next)) prev = Some (i, cur) →
  upsert next replace prev = <[i := merged replace cur next]> prev.
Proof. intros E F. unfold upsert. by rewrite E, F. Qed.

Lemma upsert_missing next replace prev :
  truthy (turnId next) = true →
  list_find (same_key (turnId next) (role next)) prev = None →
  upsert next replace prev = prev ++ [next].
Proof. intros E F. unfold upsert. by rewrite E, F. Qed.

Lemma merged_same_key replace cur next tid r :
  same_key tid r cur → same_key tid r (merged replace cur next).
Proof. by intros [??]. Qed.

Lemma merged_replace cur next c :
  same_key (turnId next) (role next) cur → chunks next = Some c →
  merged true cur next = next.
Proof.
  intros [T R] C. destruct next as [r t ti ch]; simpl in *.
  unfold merged; simpl. by rewrite T, R, C.
Qed.

(** After an upsert under a usable turn id the ledger holds the key, and in
    replace mode with chunks given the message found there is [next] itself. *)
Lemma list_find_upsert_replace next prev c :
  truthy (turnId next) = true → chunks next = Some c →
  ∃ i, list_find (same_key (turnId next) (role next)) (upsert next true prev)
       = Some (i, next).
Proof.
  intros E C.
  destruct (list_find (same_key (turnId next) (role next)) prev) as [[i cur]|] eqn:F.
  - rewrite (upsert_found _ _ _ _ _ E F).
    apply list_find_Some in F as (L & K & Least).
    rewrite (merged_replace _ _ _ K C).
    exists i. apply list_find_insert_Some. right; left.
    split_and!; [done..|by eapply lookup_lt_Some|done|done].
  - rewrite (upsert_missing _ _ _ E F).
    exists (length prev). rewrite list_find_app_r by done. simpl.
    rewrite decide_True by done. simpl. f_equal.
Qed.

Lemma elem_of_upsert next replace prev m :
  m ∈ upsert next replace prev →
  m ∈ prev ∨ m = next
  ∨ ∃ cur, cur ∈ prev ∧ same_key (turnId next) (role next) cur
           ∧ m = merged replace cur next.
Proof.
  unfold upsert. destruct (negb (truthy (turnId next))).
  { rewrite elem_of_app, list_elem_of_singleton. tauto. }
  destruct (list_find _ prev) as [[i cur]|] eqn:F.
  - apply list_find_Some in F as (L & K & _).
    intros [j [(_ & <- & _) | (_ & Hj)]%list_lookup_insert_Some]%list_elem_of_lookup.
    + right; right. exists cur. eauto using list_elem_of_lookup_2.
    + left. eauto using list_elem_of_lookup_2.
  - rewrite elem_of_app, list_elem_of_singleton. tauto.
Qed.

End Ledger.

Section LedgerTwice.
Implicit Types (next cur m : Message) (prev : list Message).

(** Two replacing upserts under one key: only the second one shows. *)
Lemma upsert_upsert_replace n1 n2 prev c1 c2 :
  truthy (turnId n1) = true →
  turnId n2 = turnId n1 → role n2 = role n1 →
  chunks n1 = Some c1 → chunks n2 = Some c2 →
  upsert n2 true (upsert n1 true prev) = upsert n2 true prev.
Proof.
  intros E T R C1 C2.
  assert (truthy (turnId n2) = true) as E2 by by rewrite T.
  destruct (list_find (same_key (turnId n1) (role n1)) prev) as [[i cur]|] eqn:F.
  - rewrite (upsert_found _ _ _ _ _ E F).
    assert (list_find (same_key (turnId n2) (role n2)) prev = Some (i, cur)) as F2
      by by rewrite T, R.
    rewrite (upsert_found _ _ _ _ _ E2 F2).
    pose proof F as (L & K & Least)%list_find_Some.
    rewrite (merged_replace _ _ _ K C1).
    assert (same_key (turnId n2) (role n2) cur) as K2 by by rewrite T, R.
    rewrite (merged_replace _ _ _ K2 C2).
    assert (list_find (same_key (turnId n2) (role n2)) (<[i:=n1]> prev) = Some (i, n1)) as F3.
    { apply list_find_insert_Some. right; left.
      split_and!; [done..|by eapply lookup_lt_Some| |].
      - by rewrite T, R.
      - rewrite T, R. done. }
    rewrite (upsert_found _ _ _ _ _ E2 F3).
    assert (same_key (turnId n2) (role n2) n1) as K3 by by rewrite T, R.
    rewrite (merged_replace _ _ _ K3 C2).
    by rewrite list_insert_insert_eq.
  - rewrite (upsert_missing _ _ _ E F).
    assert (list_find (same_key (turnId n2) (role n2)) prev = None) as F2
      by by rewrite T, R.
    rewrite (upsert_missing _ _ _ E2 F2).
    assert (list_find (same_key (turnId n2) (role n2)) (prev ++ [n1])
            = Some (length prev, n1)) as F3.
    { rewrite list_find_app_r by done. simpl.
      rewrite decide_True by by rewrite T, R. done. }
    rewrite (upsert_found _ _ _ _ _ E2 F3).
    assert (same_key (turnId n2) (role n2) n1) as K3 by by rewrite T, R.
    rewrite (merged_replace _ _ _ K3 C2).
    rewrite insert_app_r_alt by done. by rewrite Nat.sub_diag.
Qed.

End LedgerTwice.

(** ** The insertion-ordered map *)

Section MapSet.
Context {K V : Type} `{EqDecision K}.
Implicit Types (k : K) (v : V) (m : JsMap K V).

Lemma Map_set_Map_set k v1 v2 m :
  Map_set k v2 (Map_set k v1 m) = Map_set k v2 m.
Proof.
  induction m as [|[k' v'] m IH]; simpl.
  - by rewrite decide_True.
  - destruct (decide (k' = k)) as [->|N]; simpl.
    + by rewrite decide_True.
    + by rewrite decide_False, IH.
Qed.

Lemma Map_set_keys k v m :
  (Map_set k v m).*1 = if decide (k ∈ m.*1) then m.*1 else m.*1 ++ [k].
Proof.
  induction m as [|[k' v'] m IH].
  - cbn [Map_set fmap list_fmap fst app].
    rewrite decide_False; [done|]. apply not_elem_of_nil.
  - cbn [Map_set]. destruct (decide (k' = k)) as [->|N]; cbn [fmap list_fmap fst].
    + rewrite decide_True; [done|]. left.
    + fold (fmap (M:=list) (@fst K V) (Map_set k v m)). rewrite IH.
      fold (fmap (M:=list) (@fst K V) m).
      destruct (decide (k ∈ m.*1)) as [I|I].
      * rewrite decide_True; [done|]. by right.
      * rewrite decide_False; [done|]. rewrite elem_of_cons. intros [?|?]; congruence.
Qed.

Lemma Map_set_elem k v m : (k, v) ∈ Map_set k v m.
Proof.
  induction m as [|[k' v'] m IH]; cbn [Map_set]; [left|].
  destruct (decide (k' = k)) as [->|N]; [left|by right].
Qed.

Lemma Map_set_other k v m k' x :
  k' ≠ k → (k', x) ∈ Map_set k v m ↔ (k', x) ∈ m.
Proof.
  intros Ne. induction m as [|[k0 v0] m IH]; cbn [Map_set].
  - rewrite list_elem_of_singleton, elem_of_nil. split; [|done]. congruence.
  - destruct (decide (k0 = k)) as [->|N].
    + rewrite !elem_of_cons. split; (intros [E|?]; [congruence|by right]).
    + by rewrite !elem_of_cons, IH.
Qed.

Lemma Map_set_NoDup k v m : NoDup m.*1 → NoDup (Map_set k v m).*1.
Proof.
  intros N. rewrite Map_set_keys. case_decide; [done|].
  apply NoDup_app. split_and!; [done| |apply NoDup_singleton].
  intros x I ->%list_elem_of_singleton. done.
Qed.

End MapSet.

(** ** The aggregator *)

Section Aggregator.
Context `{JsRuntime}.

Lemma update_normal evt tid c st :
  turnId_of evt = Some tid → tid ≠ "" → counter_of evt = Some c →
  updateUserTranscript evt st = record_chunk tid c (content_of evt) st.
Proof.
  intros T N C. unfold updateUserTranscript. rewrite T, C.
  by rewrite (proj2 (truthy_Some tid) N).
Qed.

Lemma update_fallback evt st :
  truthy (turnId_of evt) = false ∨ delta_counter evt = None →
  updateUserTranscript evt st
  = replace_transcript (turnId_of evt) (content_of evt) st.
Proof.
  intros D. unfold updateUserTranscript.
  destruct (turnId_of evt) as [tid|] eqn:T; [|done].
  destruct (counter_of evt) as [c|] eqn:C; [|done].
  destruct D as [-> | D]; [done|].
  unfold counter_of in C. by rewrite D in C.
Qed.

Lemma transcript_record_chunk tid c x st :
  tid ≠ "" →
  let turnMap := Map_set c x (default [] (userChunksByTurn st !! tid)) in
  userChunksByTurn (record_chunk tid c x st) = <[tid := turnMap]> (userChunksByTurn st)
  ∧ transcript tid (messages (record_chunk tid c x st))
    = Some {| role := user; text := join (chunk_text <$> sorted_chunks turnMap);
              turnId := Some tid; chunks := Some (sorted_chunks turnMap) |}.
Proof.
  intros N turnMap. split; [done|].
  unfold transcript, record_chunk, upsertMessage. cbn [messages setMessages setChunks].
  fold turnMap.
  set (next := {| role := user; text := _; turnId := Some tid; chunks := Some _ |}).
  destruct (list_find_upsert_replace next (messages st) (sorted_chunks turnMap))
    as [i F]; [by apply truthy_Some|done|].
  cbn [turnId role next] in F. by rewrite F.
Qed.

(** C8: a [turn.end] event that carries a turn id removes the entry of that
    turn from the chunk store and leaves the ledger as it was; a delta for the
    same turn that follows starts from an empty chunk map, so the turn then
    holds that one chunk and its message reads the content of that delta. *)
Theorem turn_end_clears_turn (evt : AgentEvent) (tid : string) (st : State) :
  type evt = Some "turn.end" → turnId_of evt = Some tid →
  let st' := handleAgentMessage evt st in
  userChunksByTurn st' = delete tid (userChunksByTurn st)
  ∧ messages st' = messages st
  ∧ ∀ (d : AgentEvent) (c : JsNum),
      is_delta d → turnId_of d = Some tid → tid ≠ "" → counter_of d = Some c →
      let st'' := handleAgentMessage d st' in
      userChunksByTurn st'' !! tid = Some [(c, content_of d)]
      ∧ transcript tid (messages st'')
        = Some {| role := user; text := content_of d; turnId := Some tid;
                  chunks := Some [{| counter := c; chunk_text := content_of d |}] |}.
Proof.
  intros E T st'. subst st'. rewrite (handle_turn_end _ _ _ E T).
  split_and!; [done..|].
  intros d c D Td N C st''. subst st''.
  rewrite (handle_delta _ _ D), (update_normal _ _ _ _ Td N C).
  destruct (transcript_record_chunk tid c (content_of d) (clearTurn tid st) N)
    as [S M].
  rewrite S, M. cbn [clearTurn setChunks userChunksByTurn].
  rewrite lookup_delete_eq. cbn [default Map_set].
  rewrite lookup_insert_eq. split; [done|].
  unfold sorted_chunks, join. cbn. by destruct (content_of d).
Qed.

(** Two deltas with the same counter for the same turn leave the state that
    the second one alone would have left. *)
Lemma second_delta_alone (e1 e2 : AgentEvent) (tid : string) (c : JsNum) (st : State) :
  is_delta e1 → is_delta e2 →
  turnId_of e1 = Some tid → turnId_of e2 = Some tid → tid ≠ "" →
  counter_of e1 = Some c → counter_of e2 = Some c →
  handleAgentMessage e2 (handleAgentMessage e1 st) = handleAgentMessage e2 st.
Proof.
  intros D1 D2 T1 T2 N C1 C2.
  rewrite !handle_delta by done.
  rewrite (update_normal _ _ _ _ T1 N C1), !(update_normal _ _ _ _ T2 N C2).
  unfold record_chunk, upsertMessage, setMessages, setChunks.
  cbn [messages userChunksByTurn isSessionActive error].
  rewrite lookup_insert_eq. cbn [default from_option id].
  rewrite Map_set_Map_set, insert_insert_eq.
  f_equal. eapply upsert_upsert_replace; [by apply truthy_Some|done..].
Qed.

(** C3, as the code has it: a delta whose turn id is absent or empty, or whose
    [delta_counter] is missing, takes the replacement path.  The chunk store
    loses the entry of that turn (when the turn id is usable) and is otherwise
    unchanged, so nothing is recorded; the ledger gets a user message with the
    content as text and no chunks, written over the message of that turn when
    the turn id is usable and one exists, appended otherwise. *)
Theorem fallback_replacement (evt : AgentEvent) (st : State) :
  is_delta evt →
  truthy (turnId_of evt) = false ∨ delta_counter evt = None →
  let st' := handleAgentMessage evt st in
  let next := {| role := user; text := content_of evt;
                 turnId := turnId_of evt; chunks := Some [] |} in
  (∀ t, userChunksByTurn st' !! t
        = if decide (turnId_of evt = Some t ∧ t ≠ "") then None
          else userChunksByTurn st !! t)
  ∧ messages st'
    = if truthy (turnId_of evt) then
        match list_find (same_key (turnId_of evt) user) (messages st) with
        | Some (i, _) => <[i := next]> (messages st)
        | None => messages st ++ [next]
        end
      else messages st ++ [next].
Proof.
  intros D F st' next. subst st'.
  rewrite (handle_delta _ _ D), (update_fallback _ _ F).
  unfold replace_transcript. fold next. split.
  - intros t. destruct (turnId_of evt) as [tid|] eqn:T.
    + destruct (truthy (Some tid)) eqn:E.
      * apply truthy_Some in E.
        cbn [upsertMessage setMessages clearTurn setChunks userChunksByTurn].
        destruct (decide (tid = t)) as [->|Ne].
        -- rewrite lookup_delete_eq. by rewrite decide_True.
        -- rewrite lookup_delete_ne by done. rewrite decide_False; [done|].
           intros [[= ->] _]. done.
      * cbn [upsertMessage setMessages userChunksByTurn].
        rewrite decide_False; [done|]. intros [[= ->] Ne].
        apply truthy_Some in Ne. congruence.
    + cbn [upsertMessage setMessages userChunksByTurn].
      rewrite decide_False; [done|]. by intros [? _].
  - subst next. destruct (turnId_of evt) as [tid|] eqn:T.
    + destruct (truthy (Some tid)) eqn:E;
        cbn [upsertMessage setMessages clearTurn setChunks messages].
      * destruct (list_find (same_key (Some tid) user) (messages st))
          as [[i cur]|] eqn:L.
        -- erewrite upsert_found; [|done|exact L].
           apply list_find_Some in L as (_ & K & _).
           by erewrite merged_replace.
        -- by rewrite upsert_missing.
      * by rewrite upsert_falsy.
    + cbn [upsertMessage setMessages messages]. by rewrite upsert_falsy.
Qed.

End Aggregator.

(** ** Which turn an event addresses *)

Section Addressing.
Context `{JsRuntime}.

Lemma upsert_frame next replace prev i m :
  prev !! i = Some m → turnId m ≠ turnId next →
  upsert next replace prev !! i = Some m.
Proof.
  intros L Ne. unfold upsert. destruct (negb (truthy (turnId next))).
  { by apply lookup_app_l_Some. }
  destruct (list_find _ prev) as [[j cur]|] eqn:F.
  - apply list_find_Some in F as (Lj & [KT _] & _).
    rewrite list_lookup_insert_ne; [done|]. intros <-. congruence.
  - by apply lookup_app_l_Some.
Qed.

(** An event leaves alone every chunk entry but the one of its turn id. *)
Lemma handle_store_frame evt st t :
  turnId_of evt ≠ Some t →
  userChunksByTurn (handleAgentMessage evt st) !! t = userChunksByTurn st !! t.
Proof.
  intros Ne. unfold handleAgentMessage.
  destruct (negb (truthy (type evt))); [done|].
  destruct (bool_decide (type evt = Some "turn.end")).
  { destruct (turnId_of evt) as [tid|] eqn:T.
    - cbn. apply lookup_delete_ne. congruence.
    - destruct (_ || _); [|by destruct (bool_decide _)].
      unfold updateUserTranscript. by rewrite T. }
  destruct (_ || _); [|by destruct (bool_decide _)].
  unfold updateUserTranscript.
  destruct (turnId_of evt) as [tid|] eqn:T; [|done].
  assert (tid ≠ t) by congruence.
  assert (userChunksByTurn (replace_transcript (Some tid) (content_of evt) st) !! t
          = userChunksByTurn st !! t) as R.
  { unfold replace_transcript. destruct (truthy (Some tid)); cbn; [|done].
    by apply lookup_delete_ne. }
  destruct (counter_of evt) as [c|]; [|done].
  destruct (truthy (Some tid)); [|done].
  cbn. by apply lookup_insert_ne.
Qed.

(** An event leaves alone, each in its place, the messages of other turn
    ids. *)
Lemma handle_ledger_frame evt st i m :
  messages st !! i = Some m → turnId m ≠ turnId_of evt →
  messages (handleAgentMessage evt st) !! i = Some m.
Proof.
  intros L Ne. unfold handleAgentMessage.
  destruct (negb (truthy (type evt))); [done|].
  assert (∀ s, messages s = messages st →
            messages (updateUserTranscript evt s) !! i = Some m) as U.
  { intros s E. unfold updateUserTranscript.
    assert (messages (replace_transcript (turnId_of evt) (content_of evt) s) !! i
            = Some m) as R.
    { unfold replace_transcript. cbn [upsertMessage setMessages messages].
      apply upsert_frame; [|done].
      destruct (turnId_of evt) as [tid|]; [|by rewrite E].
      destruct (truthy (Some tid)); cbn; by rewrite E. }
    destruct (turnId_of evt) as [tid|] eqn:T; [|done].
    destruct (counter_of evt) as [c|]; [|done].
    destruct (truthy (Some tid)); [|done].
    cbn. apply upsert_frame; [by rewrite E|done]. }
  assert (messages (appendAssistantMessage evt st) !! i = Some m) as A.
  { cbn. by apply upsert_frame. }
  destruct (bool_decide (type evt = Some "turn.end")).
  { destruct (turnId_of evt) as [tid|] eqn:T; [done|].
    destruct (_ || _); [by apply U|]. by destruct (bool_decide _). }
  destruct (_ || _); [by apply U|]. by destruct (bool_decide _).
Qed.

End Addressing.

(** ** Session lifecycle *)

(** C5, as the code has it: the disconnect callback empties the chunk store
    and appends the system message [Disconnected] to the ledger, which keeps
    all earlier messages.  The ledger is emptied, with the chunk store, by the
    connect button when a connection can be started, and by nothing else on
    that button. *)
Theorem disconnect_then_connect_click (st : State) (isConnecting : bool) :
  userChunksByTurn (onDisconnect st) = ∅
  ∧ messages (onDisconnect st) = messages st ++ [system_message "Disconnected"]
  ∧ handleConnectClick isConnecting st
    = if negb (isSessionActive st) && negb isConnecting
      then {| messages := []; userChunksByTurn := ∅;
              isSessionActive := isSessionActive st; error := None |}
      else st.
Proof.
  split_and!; [done..|].
  unfold handleConnectClick.
  by destruct (negb (isSessionActive st) && negb isConnecting).
Qed.

(** ** The authorization route *)

Lemma append_nil_l (s : string) : "" +:+ s = s.
Proof. reflexivity. Qed.

Lemma append_cons (x : ascii) (a s : string) :
  String x a +:+ s = String x (a +:+ s).
Proof. reflexivity. Qed.

Lemma prefix_app (a s : string) :
  String.prefix a s = true ↔ ∃ post, s = a +:+ post.
Proof.
  revert s. induction a as [|x a IH]; intros s.
  - split; [intros _; by exists s|]. intros _. by destruct s.
  - destruct s as [|y s]; cbn [String.prefix].
    { split; [done|]. intros [post E]. rewrite append_cons in E. discriminate. }
    destruct (ascii_dec x y) as [->|N].
    + rewrite IH. split; intros [post E]; exists post.
      * by rewrite append_cons, E.
      * rewrite append_cons in E. congruence.
    + split; [done|]. intros [post E]. rewrite append_cons in E. congruence.
Qed.

(** [includes] finds exactly the substrings. *)
Lemma includes_spec (s sub : string) :
  includes s sub = true ↔ ∃ pre post, s = pre +:+ sub +:+ post.
Proof.
  induction s as [|x s IH]; cbn [includes].
  - rewrite orb_false_r, prefix_app. split.
    + intros [post E]. by exists "", post.
    + intros [[|??] [post E]]; [by exists post|].
      rewrite append_cons in E. discriminate.
  - rewrite orb_true_iff, prefix_app, IH. split.
    + intros [[post E] | (pre & post & E)].
      * by exists "", post.
      * exists (String x pre), post. by rewrite append_cons, E.
    + intros [[|y pre] [post E]].
      * left. by exists post.
      * right. exists pre, post. rewrite append_cons in E. congruence.
Qed.

(** Before the exchange the handler throws: these are not failures of the
    exchange, which is not started. *)
Lemma POST_throws_before_exchange (apiKey : option string) (body : RequestJson)
    (up : Upstream) :
  truthy apiKey = false
  ∨ body = JsonNull
  ∨ (∃ m, body = JsonRejects m)
  ∨ (∃ b, body = JsonObject b ∧ truthy (agent_id b) = false) →
  ∃ m, POST apiKey body up = Throws m.
Proof.
  unfold POST.
  intros [-> | [-> | [[m ->] | (b & -> & ->)]]]; simpl;
    destruct (truthy apiKey); simpl; eauto.
Qed.

(** C6: when the request is well formed and the exchange with the upstream
    service fails with some error message, the handler answers with a JSON
    response and throws nothing.  A message that contains
    [insufficient_balance] gives status 402 with that error code; any other
    message gives status 500 with the message itself as the error. *)
Theorem authorization_failure_response
    (apiKey : option string) (requestBody : RequestBody) (up : Upstream)
    (message : string) :
  truthy apiKey = true → truthy (agent_id requestBody) = true →
  exchange up = inl message →
  POST apiKey (JsonObject requestBody) up
  = if includes message "insufficient_balance"
    then Response 402 (ErrorBody "insufficient_balance")
    else Response 500 (ErrorBody message).
Proof.
  intros K A E. unfold POST. rewrite K, A, E. simpl negb. cbv iota.
  destruct message as [|x m]; [done|]. reflexivity.
Qed.

(** ** Sorting the entries of a turn *)

Section Sorting.
Implicit Types (x y : JsNum * string) (l : list (JsNum * string)).

Lemma sort_insert_perm x l : sort_insert by_counter x l ≡ₚ x :: l.
Proof.
  induction l as [|y l IH]; simpl; [done|].
  destruct (positive_result _); [|done].
  by rewrite IH, Permutation_swap.
Qed.

Lemma Array_sort_perm l : Array_sort by_counter l ≡ₚ l.
Proof.
  induction l as [|x l IH]; simpl; [done|].
  by rewrite sort_insert_perm, IH.
Qed.

Lemma entry_lt_trans x y z : entry_lt x y → entry_lt y z → entry_lt x z.
Proof.
  unfold entry_lt, chunk_lt. simpl.
  destruct x.1, y.1, z.1; try done. lia.
Qed.

Lemma sort_insert_sorted x l :
  is_num x.1 → Forall (λ y, is_num y.1) l → x.1 ∉ l.*1 →
  StronglySorted entry_lt l → StronglySorted entry_lt (sort_insert by_counter x l).
Proof.
  intros Nx Nl Fresh S. induction S as [|y l S IH Hy]; simpl.
  { by repeat constructor. }
  apply Forall_cons in Nl as [Ny Nl].
  apply not_elem_of_cons in Fresh as [Ne Fresh].
  unfold by_counter at 1.
  destruct x as [[a|] u], y as [[b|] v]; simpl in *; try done.
  case_bool_decide as Cmp.
  - constructor; [by apply IH|].
    rewrite sort_insert_perm. constructor; [|done].
    unfold entry_lt, chunk_lt; simpl. lia.
  - assert (entry_lt (Num a, u) (Num b, v)) as Lt.
    { unfold entry_lt, chunk_lt; simpl.
      assert (a ≠ b) by congruence. lia. }
    constructor; [by constructor|].
    constructor; [done|].
    eapply Forall_impl; [exact Hy|]. intros z. by apply entry_lt_trans.
Qed.

Lemma Array_sort_sorted l :
  Forall (λ y, is_num y.1) l → NoDup l.*1 →
  StronglySorted entry_lt (Array_sort by_counter l).
Proof.
  induction l as [|x l IH]; simpl; [constructor|].
  intros [Nx Nl]%Forall_cons [Fresh ND]%NoDup_cons.
  apply sort_insert_sorted; [done| | |by apply IH].
  - by rewrite Array_sort_perm.
  - by rewrite Array_sort_perm.
Qed.

(** The chunks of a turn stand in ascending counter order whenever all their
    counters are numbers. *)
Lemma sorted_chunks_sorted l :
  NoDup l.*1 → numeric_chunks (sorted_chunks l) →
  StronglySorted chunk_lt (sorted_chunks l).
Proof.
  intros ND Nm. unfold sorted_chunks.
  apply (StronglySorted_fmap entry_chunk entry_lt); [done|].
  apply Array_sort_sorted; [|done].
  unfold numeric_chunks, sorted_chunks in Nm.
  rewrite Forall_fmap, Array_sort_perm in Nm. done.
Qed.

End Sorting.

(** ** Reachable states *)

Section Uniqueness.
Implicit Types (next cur m : Message) (prev l : list Message).

Lemma keys_unique_snoc l m :
  keys_unique l →
  (truthy (turnId m) = true → list_find (same_key (turnId m) (role m)) l = None) →
  keys_unique (l ++ [m]).
Proof.
  intros U F i j mi mj Hi Hj T [KT KR].
  apply lookup_app_Some in Hi as [Hi | [Li Hi]];
    apply lookup_app_Some in Hj as [Hj | [Lj Hj]].
  - by apply (U i j mi mj).
  - apply list_lookup_singleton_Some in Hj as [_ <-].
    rewrite <- KT in T. specialize (F T).
    rewrite list_find_None, Forall_forall in F.
    destruct (F mi); [by eapply list_elem_of_lookup_2|done].
  - apply list_lookup_singleton_Some in Hi as [_ <-].
    specialize (F T). rewrite list_find_None, Forall_forall in F.
    destruct (F mj); [by eapply list_elem_of_lookup_2|done].
  - apply list_lookup_singleton_Some in Hi as [Zi _].
    apply list_lookup_singleton_Some in Hj as [Zj _]. lia.
Qed.

Lemma keys_unique_insert l i cur m :
  keys_unique l → l !! i = Some cur →
  turnId m = turnId cur → role m = role cur →
  keys_unique (<[i := m]> l).
Proof.
  intros U L T R.
  assert (∀ a ma, <[i:=m]> l !! a = Some ma →
            ∃ ma', l !! a = Some ma' ∧ turnId ma' = turnId ma ∧ role ma' = role ma)
    as Same.
  { intros a ma [(<- & <- & _) | (_ & La)]%list_lookup_insert_Some; eauto. }
  intros a b ma mb Ha Hb Tr [KT KR].
  apply Same in Ha as (ma' & Ha & Ta & Ra).
  apply Same in Hb as (mb' & Hb & Tb & Rb).
  apply (U a b ma' mb'); [done..|congruence|split; congruence].
Qed.

Lemma upsert_keys_unique next replace prev :
  keys_unique prev → keys_unique (upsert next replace prev).
Proof.
  intros U. unfold upsert. destruct (truthy (turnId next)) eqn:E; simpl.
  - destruct (list_find _ prev) as [[i cur]|] eqn:F.
    + apply list_find_Some in F as (L & _ & _).
      by apply (keys_unique_insert _ _ cur).
    + by apply keys_unique_snoc.
  - apply keys_unique_snoc; [done|congruence].
Qed.

Lemma upsert_user_aggregated next replace prev :
  Forall user_aggregated prev →
  (role next = user → replace = true ∧ (chunks next = Some [] ∨ aggregated next)) →
  Forall user_aggregated (upsert next replace prev).
Proof.
  rewrite !Forall_forall. intros A Ok m [I | [-> | (cur & I & K & ->)]]%elem_of_upsert.
  - by apply A.
  - intros R. by destruct (Ok R).
  - intros R. cbn [merged role] in R. destruct K as [KT KR].
    assert (role next = user) as Rn by congruence.
    destruct (Ok Rn) as [-> Ag].
    assert (∃ c, chunks next = Some c) as [c C].
    { destruct Ag as [?|(?&?&_)]; eauto. }
    by rewrite (merged_replace cur next c).
Qed.

(** With unique keys the first match is the most recent one. *)
Lemma find_last_Some {A} (P : A → Prop) `{!∀ x, Decision (P x)} (l : list A) i x :
  find_last P l = Some (i, x) → l !! i = Some x ∧ P x.
Proof.
  revert i. induction l as [|y l IH]; intros i; simpl; [done|].
  destruct (find_last P l) as [[j z]|].
  - intros [= <- <-]. by apply IH.
  - case_decide; [|done]. by intros [= <- <-].
Qed.

Lemma list_find_find_last {A} (P : A → Prop) `{!∀ x, Decision (P x)} (l : list A) :
  (∀ i j x y, l !! i = Some x → l !! j = Some y → P x → P y → i = j) →
  list_find P l = find_last P l.
Proof.
  induction l as [|y l IH]; intros U; simpl; [done|].
  rewrite IH by (intros i j x z ????; apply (inj S), (U (S i) (S j) x z); done).
  destruct (find_last P l) as [[j z]|] eqn:F.
  - apply find_last_Some in F as [L Pz].
    case_decide as Py; [|done].
    by specialize (U 0 (S j) y z eq_refl L Py Pz).
  - simpl. by case_decide.
Qed.

Lemma upsert_is_upsert_most_recent next replace prev :
  keys_unique prev →
  upsert next replace prev = upsert_most_recent truthy next replace prev.
Proof.
  intros U. unfold upsert, upsert_most_recent.
  destruct (truthy (turnId next)) eqn:E; simpl; [|done].
  rewrite list_find_find_last; [done|].
  intros i j x y Li Lj [Tx Rx] Ky. apply (U i j x y); [done..|congruence|].
  rewrite Tx, Rx. done.
Qed.

End Uniqueness.

Section Reachable.
Context `{JsRuntime}.

Lemma keys_unique_nil : keys_unique [].
Proof. intros i j mi mj Hi. by destruct i. Qed.

Lemma invariant_initial : invariant initial.
Proof.
  split_and!; [apply keys_unique_nil|constructor|apply map_Forall_empty].
Qed.

Lemma invariant_upsertMessage next replace st :
  invariant st →
  (role next = user → replace = true ∧ (chunks next = Some [] ∨ aggregated next)) →
  invariant (upsertMessage next replace st).
Proof.
  intros (U & A & N) Ok. split_and!; cbn.
  - by apply upsert_keys_unique.
  - by apply upsert_user_aggregated.
  - done.
Qed.

Lemma invariant_append_system t st :
  invariant st → invariant (appendSystemMessage t st).
Proof.
  intros (U & A & N). split_and!; cbn; [| |done].
  - apply keys_unique_snoc; [done|]. by cbn.
  - apply Forall_app. split; [done|]. by repeat constructor.
Qed.

Lemma invariant_clearTurn tid st : invariant st → invariant (clearTurn tid st).
Proof.
  intros (U & A & N). split_and!; cbn; [done..|]. by apply map_Forall_delete.
Qed.

Lemma invariant_record_chunk tid c x st :
  invariant st → invariant (record_chunk tid c x st).
Proof.
  intros (U & A & N).
  assert (NoDup (Map_set c x (default [] (userChunksByTurn st !! tid))).*1) as ND.
  { apply Map_set_NoDup. destruct (userChunksByTurn st !! tid) as [tm|] eqn:L.
    - by apply (N tid tm).
    - constructor. }
  unfold record_chunk. apply invariant_upsertMessage.
  - split_and!; cbn; [done..|]. by apply map_Forall_insert_2.
  - intros _. split; [done|]. right. eexists. split_and!; cbn; [done..|].
    intros Nm. by apply sorted_chunks_sorted.
Qed.

Lemma invariant_replace_transcript tid x st :
  invariant st → invariant (replace_transcript tid x st).
Proof.
  intros I. unfold replace_transcript. apply invariant_upsertMessage.
  - destruct tid as [t|]; [|done].
    destruct (truthy (Some t)); [by apply invariant_clearTurn|done].
  - intros _. split; [done|]. by left.
Qed.

Lemma invariant_updateUserTranscript evt st :
  invariant st → invariant (updateUserTranscript evt st).
Proof.
  intros I. unfold updateUserTranscript.
  destruct (turnId_of evt) as [tid|]; [|by apply invariant_replace_transcript].
  destruct (counter_of evt) as [c|]; [|by apply invariant_replace_transcript].
  destruct (truthy (Some tid)).
  - by apply invariant_record_chunk.
  - by apply invariant_replace_transcript.
Qed.

Lemma invariant_handleAgentMessage evt st :
  invariant st → invariant (handleAgentMessage evt st).
Proof.
  intros I. unfold handleAgentMessage.
  destruct (negb (truthy (type evt))); [done|].
  destruct (if bool_decide (type evt = Some "turn.end") then turnId_of evt else None)
    as [tid|]; [by apply invariant_clearTurn|].
  destruct (_ || _); [by apply invariant_updateUserTranscript|].
  destruct (bool_decide _); [|done].
  by apply invariant_upsertMessage.
Qed.

Lemma invariant_step a st : invariant st → invariant (step a st).
Proof.
  intros I. destruct a as [evt| | |m|c|m]; cbn [step].
  - by apply invariant_handleAgentMessage.
  - apply invariant_append_system. by destruct I as (?&?&?).
  - apply invariant_append_system. destruct I as (?&?&?).
    split_and!; cbn; [done..|apply map_Forall_empty].
  - unfold onError. destruct (_ || _); [by destruct I as (?&?&?)|].
    by apply (invariant_append_system ("Error: " +:+ m)).
  - unfold handleConnectClick. destruct (negb _); [done|].
    apply invariant_initial.
  - destruct I as (?&?&?). split_and!; cbn; [|by repeat constructor|done].
    by apply (keys_unique_snoc []); [apply keys_unique_nil|].
Qed.

Lemma invariant_run acts st : invariant st → invariant (run acts st).
Proof.
  revert st. induction acts as [|a acts IH]; intros st I; [done|].
  apply IH. by apply invariant_step.
Qed.

(** C2, as the code has it: after any sequence of callbacks from the initial
    state, a user message either has no chunks (it was written by the
    replacement path, which stores the content of the event) or its text is
    the concatenation of the texts of its chunks, and these stand in ascending
    counter order when their counters are numbers. *)
Theorem user_message_aggregated (acts : list Action) (m : Message) :
  m ∈ messages (run acts initial) → role m = user →
  chunks m = Some [] ∨ aggregated m.
Proof.
  intros I R.
  destruct (invariant_run acts initial invariant_initial) as (_ & A & _).
  rewrite Forall_forall in A. by apply A.
Qed.

(** C4, as the code has it: on every reachable ledger the upsert of a message
    with a non-empty turn id overwrites, in place, the most recent message
    with the same turn id and role, or appends the message when there is none;
    a message whose turn id is missing or empty is appended. *)
Theorem upsert_overwrites_most_recent
    (acts : list Action) (next : Message) (replace : bool) :
  upsert next replace (messages (run acts initial))
  = upsert_most_recent truthy next replace (messages (run acts initial)).
Proof.
  apply upsert_is_upsert_most_recent.
  by destruct (invariant_run acts initial invariant_initial) as (U & _ & _).
Qed.

End Reachable.

(** ** Reassembly against the specification *)

Section Reassembly.
Context `{JsRuntime}.
Implicit Types (l deltas : list (Z * string)).

#[local] Instance counter_le_total : Total counter_le.
Proof. intros a b. unfold counter_le. lia. Qed.

#[local] Instance counter_le_trans : Transitive counter_le.
Proof. intros a b c. unfold counter_le. lia. Qed.

#[local] Instance entry_lt_antisymm : AntiSymm (=) entry_lt.
Proof.
  intros x y. unfold entry_lt, chunk_lt. simpl.
  destruct x.1, y.1; try done. lia.
Qed.

#[local] Instance Num_inj : Inj (=) (=) Num.
Proof. by intros a b [= ->]. Qed.

Lemma Map_set_numbered k v l :
  Map_set (Num k) v (numbered <$> l) = numbered <$> Map_set k v l.
Proof.
  induction l as [|[k' v'] l IH]; [done|].
  rewrite fmap_cons. cbn [Map_set numbered fst snd].
  destruct (decide (k' = k)) as [->|N].
  - by rewrite decide_True.
  - rewrite decide_False by congruence. rewrite fmap_cons. f_equal. apply IH.
Qed.

Lemma list_to_map_Map_set k v l :
  (list_to_map (Map_set k v l) : gmap Z string) = <[k := v]> (list_to_map l).
Proof.
  induction l as [|[k' v'] l IH]; [done|]. cbn [Map_set].
  destruct (decide (k' = k)) as [->|N].
  - rewrite !list_to_map_cons. by rewrite insert_insert_eq.
  - rewrite !list_to_map_cons, IH. by apply insert_insert_ne.
Qed.

Lemma list_to_map_entries_after l0 deltas :
  (list_to_map (entries_after l0 deltas) : gmap Z string)
  = foldl recordChunk (list_to_map l0) deltas.
Proof.
  revert l0. induction deltas as [|[k v] deltas IH]; intros l0; [done|].
  cbn [entries_after foldl]. fold (entries_after (Map_set k v l0) deltas).
  by rewrite IH, list_to_map_Map_set.
Qed.

Lemma entries_after_NoDup l0 deltas :
  NoDup l0.*1 → NoDup (entries_after l0 deltas).*1.
Proof.
  revert l0. induction deltas as [|[k v] deltas IH]; intros l0 ND; [done|].
  apply IH. by apply Map_set_NoDup.
Qed.

Lemma strictly_sorted l :
  StronglySorted counter_le l → NoDup l.*1 →
  StronglySorted (λ a b, a.1 < b.1)%Z l.
Proof.
  induction 1 as [|x l S IH Hx]; [constructor|].
  rewrite fmap_cons. intros [Fresh ND]%NoDup_cons.
  constructor; [by apply IH|].
  rewrite Forall_forall in Hx |- *. intros y I.
  specialize (Hx y I). unfold counter_le in Hx.
  assert (x.1 ≠ y.1); [|lia].
  intros E. apply Fresh. rewrite E. by apply list_elem_of_fmap_2.
Qed.

(** The insertion sort of the entries is the merge sort of the mapping. *)
Lemma sort_is_reassemble l :
  NoDup l.*1 →
  Array_sort by_counter (numbered <$> l)
  = numbered <$> reassemble (list_to_map l).
Proof.
  intros ND. apply (StronglySorted_unique entry_lt).
  - apply Array_sort_sorted.
    + rewrite Forall_fmap. apply Forall_forall. intros [??] _. exact I.
    + assert ((numbered <$> l).*1 = Num <$> l.*1) as ->
        by by rewrite <- !list_fmap_compose.
      by apply (NoDup_fmap_2 Num).
  - apply (StronglySorted_fmap numbered (λ a b, a.1 < b.1)%Z); [done|].
    apply strictly_sorted; [apply StronglySorted_merge_sort; apply _|].
    unfold reassemble. rewrite merge_sort_Permutation.
    apply NoDup_fst_map_to_list.
  - rewrite Array_sort_perm. unfold reassemble.
    by rewrite merge_sort_Permutation, map_to_list_to_map.
Qed.

Lemma message_of_numbered tid l :
  NoDup l.*1 →
  text (message_of tid (numbered <$> l)) = join (reassemble (list_to_map l)).*2.
Proof.
  intros ND. cbn [message_of text]. unfold sorted_chunks.
  rewrite sort_is_reassemble by done.
  by rewrite <- !list_fmap_compose.
Qed.

End Reassembly.

Section SingleTurn.
Context `{JsRuntime}.
Implicit Types (l deltas : list (Z * string)).

Lemma run_cons a acts st : run (a :: acts) st = run acts (step a st).
Proof. done. Qed.

(** A run of deltas of one turn: the store holds the entries in arrival order
    and the ledger holds the message written for them. *)
Lemma run_deltas tid evs deltas st l0 :
  tid ≠ "" → Forall2 (delta_of tid) evs deltas → evs ≠ [] →
  default [] (userChunksByTurn st !! tid) = numbered <$> l0 →
  let turnMap := numbered <$> entries_after l0 deltas in
  userChunksByTurn (run (OnMessage <$> evs) st) !! tid = Some turnMap
  ∧ transcript tid (messages (run (OnMessage <$> evs) st))
    = Some (message_of tid turnMap).
Proof.
  intros N F. revert st l0.
  induction F as [|evt [k v] evs deltas (D & T & C & X) F IH]; intros st l0 NE L;
    [done|].
  rewrite fmap_cons, run_cons. cbn [step entries_after foldl].
  fold (entries_after (Map_set k v l0) deltas).
  rewrite (handle_delta _ _ D), (update_normal _ _ _ _ T N C).
  cbn [fst snd] in *. subst v.
  destruct (transcript_record_chunk tid (Num k) (content_of evt) st N) as [S M].
  rewrite L, Map_set_numbered in S, M.
  destruct evs as [|evt' evs].
  - apply Forall2_nil_inv_l in F as ->. cbn [fmap list_fmap run foldl entries_after].
    rewrite S, lookup_insert_eq. done.
  - apply IH; [done|]. by rewrite S, lookup_insert_eq.
Qed.

Lemma recordChunk_fold deltas :
  foldl recordChunk ∅ deltas = list_to_map (reverse deltas).
Proof.
  induction deltas as [|[k v] deltas IH] using rev_ind; [done|].
  by rewrite foldl_snoc, reverse_snoc, list_to_map_cons, IH.
Qed.

Lemma reassembled_text_perm deltas deltas' :
  NoDup deltas.*1 → deltas' ≡ₚ deltas →
  reassembled_text deltas' = reassembled_text deltas.
Proof.
  intros ND P. unfold reassembled_text. rewrite !recordChunk_fold.
  rewrite (list_to_map_proper (reverse deltas') (reverse deltas)); [done| |].
  - rewrite fmap_reverse, reverse_Permutation, P. done.
  - by rewrite !reverse_Permutation.
Qed.

(** C1: a sequence of deltas of one fresh turn whose counters are numbers
    leaves a user message whose text is the concatenation of the chunk texts
    in ascending counter order, a later chunk replacing an earlier one with
    the same counter.  With distinct counters the text does not depend on the
    order of arrival. *)
Theorem reassembly_in_counter_order
    (tid : string) (evs : list AgentEvent) (deltas : list (Z * string)) (st : State) :
  tid ≠ "" → userChunksByTurn st !! tid = None → evs ≠ [] →
  Forall2 (delta_of tid) evs deltas →
  text <$> transcript tid (messages (run (OnMessage <$> evs) st))
  = Some (reassembled_text deltas)
  ∧ ∀ evs' deltas',
      Forall2 (delta_of tid) evs' deltas' →
      NoDup deltas.*1 → deltas' ≡ₚ deltas →
      text <$> transcript tid (messages (run (OnMessage <$> evs') st))
      = text <$> transcript tid (messages (run (OnMessage <$> evs) st)).
Proof.
  intros N Fresh NE F.
  assert (∀ evs1 deltas1, evs1 ≠ [] → Forall2 (delta_of tid) evs1 deltas1 →
            text <$> transcript tid (messages (run (OnMessage <$> evs1) st))
            = Some (reassembled_text deltas1)) as Main.
  { intros evs1 deltas1 NE1 F1.
    destruct (run_deltas tid evs1 deltas1 st [] N F1 NE1) as [_ ->];
      [by rewrite Fresh|].
    cbn [fmap option_fmap option_map]. f_equal.
    rewrite message_of_numbered by (apply entries_after_NoDup; constructor).
    unfold reassembled_text. by rewrite list_to_map_entries_after. }
  split; [by apply Main|].
  intros evs' deltas' F' ND P.
  rewrite (Main evs deltas NE F), (Main evs' deltas'); [|
    intros ->; apply Forall2_nil_inv_l in F' as ->;
    apply Permutation_nil_l in P; subst deltas;
    apply Forall2_nil_inv_r in F; done | done].
  f_equal. by apply reassembled_text_perm.
Qed.

End SingleTurn.

(** * Concrete runs

    The statements above at explicit inputs, with the decimal runtime. *)

Section Concrete.
#[local] Existing Instance decimal_runtime.

(** Counters 2, 0, 1 with contents c, a, b, given as numbers and as numeric
    strings, reassemble to abc. *)
Lemma reassembly_in_counter_order_witness :
  text <$> transcript "t1" (messages (run
    (OnMessage <$> [delta (Some (Str "t1")) (Some (Nbr (Num 2))) "c";
                    delta (Some (Str "t1")) (Some (Str "0")) "a";
                    delta (Some (Str "t1")) (Some (Nbr (Num 1))) "b"]) initial))
  = Some "abc"
  ∧ text <$> transcript "t1" (messages (run
      (OnMessage <$> [delta (Some (Str "t1")) (Some (Str "0")) "a";
                      delta (Some (Str "t1")) (Some (Nbr (Num 1))) "b";
                      delta (Some (Str "t1")) (Some (Nbr (Num 2))) "c"]) initial))
    = Some "abc".
Proof.
  destruct (reassembly_in_counter_order "t1"
              [delta (Some (Str "t1")) (Some (Nbr (Num 2))) "c";
               delta (Some (Str "t1")) (Some (Str "0")) "a";
               delta (Some (Str "t1")) (Some (Nbr (Num 1))) "b"]
              [(2%Z, "c"); (0%Z, "a"); (1%Z, "b")] initial) as [E P].
  - discriminate.
  - reflexivity.
  - discriminate.
  - repeat constructor.
  - assert (reassembled_text [(2%Z, "c"); (0%Z, "a"); (1%Z, "b")] = "abc") as R
      by (vm_compute; reflexivity).
    rewrite R in E. split; [exact E|].
    rewrite <- E.
    apply (P _ [(0%Z, "a"); (1%Z, "b"); (2%Z, "c")]).
    + repeat constructor.
    + apply (bool_decide_unpack _). vm_compute. exact I.
    + symmetry.
      exact (Permutation_cons_append [(0%Z, "a"); (1%Z, "b")] (2%Z, "c")).
Defined.

(** The replacement path stores the content with no chunks: the text is then
    not the concatenation of the chunks. *)
Lemma replacement_is_not_aggregated :
  let m := {| role := user; text := "hello"; turnId := Some "t1"; chunks := Some [] |} in
  m ∈ messages (run [OnMessage (delta (Some (Str "t1")) None "hello")] initial)
  ∧ role m = user ∧ turnId m ≠ None
  ∧ text m ≠ join (chunk_text <$> [])
  ∧ ¬ aggregated m.
Proof.
  split_and!; [vm_compute; left|reflexivity|discriminate|discriminate|].
  intros (cs & C & T & _). cbn in C, T. injection C as <-. discriminate.
Qed.

Lemma user_message_aggregated_witness :
  let m := {| role := user; text := "Hi there"; turnId := Some "t1";
              chunks := Some [ {| counter := Num 0; chunk_text := "Hi " |};
                               {| counter := Num 1; chunk_text := "there" |} ] |} in
  chunks m = Some [] ∨ aggregated m.
Proof.
  apply (user_message_aggregated
           [OnMessage (delta (Some (Str "t1")) (Some (Nbr (Num 0))) "Hi ");
            OnMessage (delta (Some (Str "t1")) (Some (Nbr (Num 1))) "there")]).
  - vm_compute. left.
  - reflexivity.
Defined.

(** A counter that is a string with no numeric reading becomes [NaN]; the
    delta is then recorded as a chunk under that key and the message carries
    the chunk. *)
Lemma non_numeric_counter_is_recorded :
  let evt := delta (Some (Str "t1")) (Some (Str "abc")) "x" in
  Number "abc" = NaN
  ∧ userChunksByTurn (handleAgentMessage evt initial) !! "t1" = Some [(NaN, "x")]
  ∧ messages (handleAgentMessage evt initial)
    = [ {| role := user; text := "x"; turnId := Some "t1";
           chunks := Some [ {| counter := NaN; chunk_text := "x" |} ] |} ].
Proof. split_and!; vm_compute; reflexivity. Qed.

Lemma fallback_replacement_witness :
  let st := run [OnMessage (delta (Some (Str "t1")) (Some (Nbr (Num 0))) "Hi ")] initial in
  let st' := handleAgentMessage (delta (Some (Str "t1")) None "Hello") st in
  userChunksByTurn st' !! "t1" = None
  ∧ messages st' = [ {| role := user; text := "Hello"; turnId := Some "t1";
                        chunks := Some [] |} ].
Proof.
  intros st st'.
  destruct (fallback_replacement (delta (Some (Str "t1")) None "Hello") st) as [S M].
  - by left.
  - by right.
  - subst st'. split.
    + rewrite (S "t1"). reflexivity.
    + rewrite M. vm_compute. reflexivity.
Defined.

(** A message whose turn id is the empty string is appended although a
    message with the same turn id and role is in the ledger. *)
Lemma empty_turn_id_is_appended :
  let prev := messages (run [OnMessage (delta (Some (Str "")) None "a")] initial) in
  let next := {| role := user; text := "b"; turnId := Some ""; chunks := Some [] |} in
  turnId next ≠ None
  ∧ upsert next true prev = prev ++ [next]
  ∧ upsert next true prev ≠ upsert_most_recent non_null next true prev.
Proof. split_and!; [discriminate|reflexivity|vm_compute; discriminate]. Qed.

(** The ledger survives a disconnect. *)
Lemma disconnect_keeps_ledger :
  messages (onDisconnect (onConnect initial))
  = [system_message "Connected"; system_message "Disconnected"]
  ∧ messages (onDisconnect (onConnect initial)) ≠ [].
Proof. split; [reflexivity|discriminate]. Qed.

Lemma authorization_failure_response_witness :
  POST (Some "key") (JsonObject {| agent_id := Some "agent" |})
       (NotOk "insufficient_balance: add funds" "Payment Required")
  = Response 402 (ErrorBody "insufficient_balance")
  ∧ POST (Some "key") (JsonObject {| agent_id := Some "agent" |})
         (FetchRejects "fetch failed")
    = Response 500 (ErrorBody "fetch failed").
Proof.
  split.
  - apply (authorization_failure_response (Some "key") {| agent_id := Some "agent" |}
             (NotOk "insufficient_balance: add funds" "Payment Required")
             "insufficient_balance: add funds"); reflexivity.
  - apply (authorization_failure_response (Some "key") {| agent_id := Some "agent" |}
             (FetchRejects "fetch failed") "fetch failed"); reflexivity.
Defined.

Lemma turn_end_clears_turn_witness :
  let st := run [OnMessage (delta (Some (Str "t1")) (Some (Nbr (Num 0))) "Hi ")] initial in
  let evt := {| type := Some "turn.end"; turn_id := Some (Str "t1");
                delta_counter := None; content := None |} in
  let st' := handleAgentMessage evt st in
  userChunksByTurn st' !! "t1" = None
  ∧ messages st' = messages st
  ∧ userChunksByTurn
      (handleAgentMessage (delta (Some (Str "t1")) (Some (Nbr (Num 5))) "Bye") st') !! "t1"
    = Some [(Num 5, "Bye")].
Proof.
  intros st evt st'.
  destruct (turn_end_clears_turn evt "t1" st) as (S & M & D); [reflexivity..|].
  split_and!.
  - fold st' in S. rewrite S. apply lookup_delete_eq.
  - exact M.
  - destruct (D (delta (Some (Str "t1")) (Some (Nbr (Num 5))) "Bye") (Num 5))
      as [C _]; [by left|reflexivity|discriminate|reflexivity|exact C].
Defined.

Lemma unhandled_event_is_dropped_witness :
  let st := run [OnMessage (delta (Some (Str "t1")) (Some (Nbr (Num 0))) "Hi ")] initial in
  handleAgentMessage
    {| type := None; turn_id := Some (Str "t1");
       delta_counter := Some (Nbr (Num 1)); content := Some "x" |} st = st
  ∧ handleAgentMessage
      {| type := Some "response.audio"; turn_id := Some (Str "t1");
         delta_counter := Some (Nbr (Num 1)); content := Some "x" |} st = st.
Proof.
  intros st. split; apply unhandled_event_is_dropped; discriminate.
Defined.

(** Turn 7 given as a number and as the string 7 is one turn: one chunk map,
    one user message, one assistant message. *)
Example numeric_and_string_turn_id :
  let st := run [OnMessage (delta (Some (Nbr (Num 7))) (Some (Nbr (Num 1))) "b");
                 OnMessage (delta (Some (Str "7")) (Some (Nbr (Num 0))) "a");
                 OnMessage {| type := Some "response.text"; turn_id := Some (Nbr (Num 7));
                              delta_counter := None; content := Some "Hello" |};
                 OnMessage {| type := Some "response.text"; turn_id := Some (Str "7");
                              delta_counter := None; content := Some " world" |}] initial in
  userChunksByTurn st = {[ "7" := [(Num 1, "b"); (Num 0, "a")] ]}
  ∧ (text <$> messages st) = ["ab"; "Hello world"].
Proof. split; vm_compute; reflexivity. Qed.

End Concrete.

(** * Further properties of the route *)

Section Route.

(** X1: the handler throws exactly when the request is not fit for an
    exchange: the API key is unset or empty, the body is not JSON, is [null],
    or has no [agent_id].  Whatever the upstream service does never makes it
    throw. *)
Theorem POST_throws_iff (apiKey : option string) (body : RequestJson) (up : Upstream) :
  (∃ m, POST apiKey body up = Throws m)
  ↔ truthy apiKey = false
    ∨ body = JsonNull
    ∨ (∃ m, body = JsonRejects m)
    ∨ (∃ b, body = JsonObject b ∧ truthy (agent_id b) = false).
Proof.
  unfold POST. split.
  - intros [m E]. destruct (truthy apiKey); [|by left]. right.
    destruct body as [m'| |b]; [eauto..|]. right; right. exists b. split; [done|].
    destruct (truthy (agent_id b)); [|done]. simpl in E.
    destruct up as [x|t u|x|x]; simpl in E; try done;
      by destruct (_ && _).
  - intros [-> | [-> | [[m ->] | (b & -> & ->)]]]; simpl;
      destruct (truthy apiKey); simpl; eauto.
Qed.

(** X2: every response of the handler is of one of three kinds: status 200
    carrying the value that [response.json()] parsed from the upstream body,
    which [NextResponse.json] serialises again (so not the body byte for
    byte), status 402 with the fixed error code when the failure message
    includes [insufficient_balance], or status 500 with the failure message.
    The status of the upstream response is never passed on. *)
Theorem POST_response_kinds (apiKey : option string) (body : RequestJson)
    (up : Upstream) (status : Z) (reply_body : ResponseBody) :
  POST apiKey body up = Response status reply_body →
  (status = 200%Z ∧ ∃ value, up = OkJson value ∧ reply_body = Payload value)
  ∨ (status = 402%Z ∧ reply_body = ErrorBody "insufficient_balance"
     ∧ ∃ m, exchange up = inl m ∧ substring "insufficient_balance" m)
  ∨ (status = 500%Z
     ∧ ∃ m, exchange up = inl m ∧ reply_body = ErrorBody m
            ∧ ¬ substring "insufficient_balance" m).
Proof.
  unfold POST. destruct (truthy apiKey); [|done]. simpl negb. cbv iota.
  destruct body as [m'| |b]; [done..|].
  destruct (truthy (agent_id b)); [|done]. simpl negb. cbv iota.
  destruct (exchange up) as [m|r] eqn:E.
  - assert (truthy (Some m) && includes m "insufficient_balance"
            = includes m "insufficient_balance") as ->
      by (destruct m; reflexivity).
    destruct (includes m "insufficient_balance") eqn:I.
    + intros [= <- <-]. right; left. split_and!; [done..|].
      exists m. split; [done|]. by apply includes_spec.
    + intros [= <- <-]. right; right. split; [done|].
      exists m. split_and!; [done..|].
      intros S. apply includes_spec in S. congruence.
  - intros ->. left. destruct up as [x|t u|x|p]; simpl in E; try done.
    injection E as [= <- <-]. eauto.
Qed.

Lemma POST_response_kinds_witness :
  (200%Z = 200%Z
   ∧ ∃ value, OkJson (Parsed "session") = OkJson value
              ∧ Payload (Parsed "session") = Payload value)
  ∨ (200%Z = 402%Z ∧ Payload (Parsed "session") = ErrorBody "insufficient_balance"
     ∧ ∃ m, exchange (OkJson (Parsed "session")) = inl m
            ∧ substring "insufficient_balance" m)
  ∨ (200%Z = 500%Z
     ∧ ∃ m, exchange (OkJson (Parsed "session")) = inl m
            ∧ Payload (Parsed "session") = ErrorBody m
            ∧ ¬ substring "insufficient_balance" m).
Proof.
  apply (POST_response_kinds (Some "key") (JsonObject {| agent_id := Some "agent" |})).
  reflexivity.
Defined.

(** X3: for a response that is not ok the reported message is the body of the
    response, and the status text when the body is empty; the search for
    [insufficient_balance] is made in that message. *)
Theorem not_ok_message (apiKey : option string) (b : RequestBody)
    (responseText statusText : string) :
  truthy apiKey = true → truthy (agent_id b) = true →
  let message := if String.eqb responseText "" then statusText else responseText in
  POST apiKey (JsonObject b) (NotOk responseText statusText)
  = if includes message "insufficient_balance"
    then Response 402 (ErrorBody "insufficient_balance")
    else Response 500 (ErrorBody message).
Proof.
  intros K A message. unfold POST. rewrite K, A. simpl negb. cbv iota.
  cbn [exchange]. unfold or_else.
  assert (∀ m, truthy (Some m) && includes m "insufficient_balance"
               = includes m "insufficient_balance") as T
    by (intros m; destruct m; reflexivity).
  subst message. destruct responseText as [|c r]; by rewrite T.
Qed.

Lemma not_ok_message_witness :
  POST (Some "key") (JsonObject {| agent_id := Some "agent" |})
       (NotOk "" "Service Unavailable")
  = Response 500 (ErrorBody "Service Unavailable").
Proof.
  apply (not_ok_message (Some "key") {| agent_id := Some "agent" |} ""
           "Service Unavailable"); reflexivity.
Defined.

End Route.

(** * Properties of the knowledge prompt *)

Section Knowledge.

Lemma append_assoc (a b c : string) : (a +:+ b) +:+ c = a +:+ b +:+ c.
Proof. induction a as [|x a IH]; [done|]. by rewrite !append_cons, IH. Qed.

Lemma append_nil_r (a : string) : a +:+ "" = a.
Proof. induction a as [|x a IH]; [done|]. by rewrite append_cons, IH. Qed.

Lemma append_nonempty_r (a b : string) : b ≠ "" → a +:+ b ≠ "".
Proof. intros N. destruct a; [done|]. by rewrite append_cons. Qed.

(** [trimEnd] only looks at the end: in front of a text that does not trim to
    nothing, everything is kept. *)
Lemma trimEnd_app (a b : string) :
  trimEnd b ≠ "" → trimEnd (a +:+ b) = a +:+ trimEnd b.
Proof.
  intros N. induction a as [|x a IH]; [done|].
  rewrite !append_cons. cbn [trimEnd]. rewrite IH.
  destruct (a +:+ trimEnd b) eqn:E; [|done].
  by apply append_nonempty_r in E.
Qed.

Lemma trimEnd_app_nonempty (a b : string) :
  trimEnd b ≠ "" → trimEnd (a +:+ b) ≠ "".
Proof. intros N. rewrite trimEnd_app by done. by apply append_nonempty_r. Qed.

Lemma substring_app_l (x a s : string) : substring x s → substring x (a +:+ s).
Proof.
  intros (pre & post & ->). exists (a +:+ pre), post. by rewrite append_assoc.
Qed.

Lemma substring_app_r (x s b : string) : substring x s → substring x (s +:+ b).
Proof.
  intros (pre & post & ->). exists pre, (post +:+ b). by rewrite !append_assoc.
Qed.

(** An element of a joined list stands in the joined text. *)
Lemma concat_elem (sep x : string) (l : list string) :
  x ∈ l → substring x (String.concat sep l).
Proof.
  induction l as [|y l IH]; [by intros ?%elem_of_nil|].
  intros [-> | I]%elem_of_cons.
  - destruct l as [|z l].
    + exists "", "". cbn [String.concat]. by rewrite append_nil_l, append_nil_r.
    + exists "", (sep +:+ String.concat sep (z :: l)). by rewrite append_nil_l.
  - destruct (IH I) as (pre & post & E). destruct l as [|z l].
    { by apply elem_of_nil in I. }
    exists (y +:+ sep +:+ pre), post.
    change (String.concat sep (y :: z :: l))
      with (y +:+ sep +:+ String.concat sep (z :: l)).
    by rewrite E, !append_assoc.
Qed.

Ltac trim_side :=
  lazymatch goal with
  | |- trimEnd ("=== END KNOWLEDGE BASE ===" +:+ LF) ≠ "" => by vm_compute
  | |- trimEnd (_ +:+ _) ≠ "" => apply trimEnd_app_nonempty; trim_side
  end.

(** The prompt with [trim] worked out. *)
Ltac prompt_shape :=
  unfold formatKnowledgeForPrompt, trim;
  change (trimStart (LF +:+ "=== KNOWLEDGE BASE ===" +:+ ?r))
    with ("=== KNOWLEDGE BASE ===" +:+ r);
  repeat (rewrite trimEnd_app; [|solve [trim_side]]);
  change (trimEnd ("=== END KNOWLEDGE BASE ===" +:+ LF))
    with "=== END KNOWLEDGE BASE ===".

(** X4: [trim] takes off the line feed at each end of the template and nothing
    else: the prompt is the header, the five parts under their titles and the
    footer, and white space at the ends of the parts themselves is kept. *)
Theorem prompt_is_template_without_outer_line_feeds (knowledge : KnowledgeBase) :
  formatKnowledgeForPrompt knowledge
  = "=== KNOWLEDGE BASE ===" +:+ LF +:+ LF +:+
    "COMPANY: " +:+ companyName knowledge +:+ LF +:+ LF +:+
    "ABOUT:" +:+ LF +:+ companyDescription knowledge +:+ LF +:+ LF +:+
    "FREQUENTLY ASKED QUESTIONS:" +:+ LF +:+
    String.concat (LF +:+ LF) (faq_block <$> faqs knowledge) +:+ LF +:+ LF +:+
    "PRODUCT INFORMATION:" +:+ LF +:+ productInfo knowledge +:+ LF +:+ LF +:+
    "SUPPORT:" +:+ LF +:+ supportInfo knowledge +:+ LF +:+ LF +:+
    "=== END KNOWLEDGE BASE ===".
Proof. prompt_shape. reflexivity. Qed.

(** X5: every entry of the FAQ list stands in the prompt as its block
    [Q: question], line feed, [A: answer]. *)
Theorem prompt_includes_every_faq (knowledge : KnowledgeBase) (faq : Faq) :
  faq ∈ faqs knowledge →
  includes (formatKnowledgeForPrompt knowledge) (faq_block faq) = true.
Proof.
  intros I. apply includes_spec.
  change (substring (faq_block faq) (formatKnowledgeForPrompt knowledge)).
  prompt_shape.
  repeat match goal with
         | |- substring _ (?h +:+ _) =>
             lazymatch h with
             | String.concat _ _ => fail
             | _ => apply substring_app_l
             end
         end.
  apply substring_app_r, concat_elem. by apply list_elem_of_fmap_2.
Qed.

Lemma prompt_includes_every_faq_witness :
  includes (formatKnowledgeForPrompt getKnowledgeBase)
    (faq_block {| question := "How does billing work?";
                  answer := "Layercode offers a free tier for development and testing. Production usage
is billed based on voice minutes processed. There are no per-seat licenses or minimum
commitments. You can view detailed usage in your dashboard." |}) = true.
Proof.
  apply prompt_includes_every_faq.
  apply (list_elem_of_lookup_2 _ 3). reflexivity.
Defined.

End Knowledge.

(** * Further properties of the ledger *)

Section LedgerShape.
Context `{JsRuntime}.
Implicit Types (next cur m : Message) (prev : list Message).

Lemma upsert_length next replace prev :
  length prev ≤ length (upsert next replace prev) ≤ S (length prev).
Proof.
  unfold upsert. destruct (negb _).
  { rewrite length_app. simpl. lia. }
  destruct (list_find _ prev) as [[i cur]|].
  - rewrite length_insert. lia.
  - rewrite length_app. simpl. lia.
Qed.

Lemma upsert_keeps_keys next replace prev i m :
  prev !! i = Some m →
  ∃ m', upsert next replace prev !! i = Some m'
        ∧ role m' = role m ∧ turnId m' = turnId m.
Proof.
  intros L. unfold upsert. destruct (negb _).
  { exists m. split_and!; [by apply lookup_app_l_Some|done..]. }
  destruct (list_find _ prev) as [[j cur]|] eqn:F.
  - apply list_find_Some in F as (Lj & _ & _).
    destruct (decide (j = i)) as [->|Ne].
    + exists (merged replace cur next).
      rewrite list_lookup_insert_eq by by eapply lookup_lt_Some.
      rewrite L in Lj. by injection Lj as ->.
    + exists m. by rewrite list_lookup_insert_ne.
  - exists m. split_and!; [by apply lookup_app_l_Some|done..].
Qed.

Lemma upsert_one_change next replace prev :
  ∃ k, ∀ i m, i ≠ k → prev !! i = Some m → upsert next replace prev !! i = Some m.
Proof.
  unfold upsert. destruct (negb _).
  { exists (length prev). intros i m _ L. by apply lookup_app_l_Some. }
  destruct (list_find _ prev) as [[j cur]|].
  - exists j. intros i m Ne L. by rewrite list_lookup_insert_ne.
  - exists (length prev). intros i m _ L. by apply lookup_app_l_Some.
Qed.

Lemma upsert_frame_role next replace prev i m :
  prev !! i = Some m → role m ≠ role next →
  upsert next replace prev !! i = Some m.
Proof.
  intros L Ne. unfold upsert. destruct (negb _).
  { by apply lookup_app_l_Some. }
  destruct (list_find _ prev) as [[j cur]|] eqn:F.
  - apply list_find_Some in F as (Lj & [_ KR] & _).
    rewrite list_lookup_insert_ne; [done|]. intros <-. congruence.
  - by apply lookup_app_l_Some.
Qed.

(** What an event does to the ledger: nothing, or one upsert. *)
Lemma handle_messages_cases evt st :
  messages (handleAgentMessage evt st) = messages st
  ∨ ∃ next replace,
      messages (handleAgentMessage evt st) = upsert next replace (messages st)
      ∧ turnId next = turnId_of evt
      ∧ ((is_delta evt ∧ role next = user ∧ replace = true
          ∧ is_Some (chunks next))
         ∨ (type evt = Some "response.text" ∧ role next = assistant
            ∧ replace = false ∧ chunks next = None
            ∧ text next = content_of evt)).
Proof.
  unfold handleAgentMessage.
  destruct (negb (truthy (type evt))); [by left|].
  destruct (if bool_decide _ then turnId_of evt else None) as [tid|] eqn:TE.
  { by left. }
  destruct (bool_decide (type evt = Some "user.transcript.delta")
            || bool_decide (type evt = Some "user.transcript.interim_delta")) eqn:D.
  - assert (is_delta evt) as Dl.
    { apply orb_true_iff in D as [D|D]; apply bool_decide_eq_true in D;
        [by left|by right]. }
    right. unfold updateUserTranscript.
    assert (∃ next, messages (replace_transcript (turnId_of evt) (content_of evt) st)
                    = upsert next true (messages st)
                    ∧ turnId next = turnId_of evt ∧ role next = user
                    ∧ is_Some (chunks next)) as (nx & R1 & R2 & R3 & R4).
    { exists {| role := user; text := content_of evt;
                turnId := turnId_of evt; chunks := Some [] |}.
      unfold replace_transcript. cbn [upsertMessage setMessages messages].
      split_and!; [|done..|by eexists].
      destruct (turnId_of evt) as [tid|]; [|done].
      by destruct (truthy (Some tid)). }
    destruct (turnId_of evt) as [tid|] eqn:T; [|exists nx, true; by eauto 10].
    destruct (counter_of evt) as [c|]; [|exists nx, true; by eauto 10].
    destruct (truthy (Some tid)); [|exists nx, true; by eauto 10].
    eexists _, true. split; [done|]. split; [done|]. left. by eauto.
  - destruct (bool_decide (type evt = Some "response.text")) eqn:R; [|by left].
    apply bool_decide_eq_true in R. right.
    eexists _, false. split; [done|]. split; [done|]. right. by eauto 10.
Qed.

(** X6: an event never removes or moves a message and adds at most one: every
    position keeps its role and its turn id, and at most one position of the
    ledger changes at all. *)
Theorem ledger_positions_are_stable (evt : AgentEvent) (st : State) :
  let before := messages st in
  let after := messages (handleAgentMessage evt st) in
  length before ≤ length after ≤ S (length before)
  ∧ (∀ i m, before !! i = Some m →
       ∃ m', after !! i = Some m' ∧ role m' = role m ∧ turnId m' = turnId m)
  ∧ ∃ k, ∀ i m, i ≠ k → before !! i = Some m → after !! i = Some m.
Proof.
  intros before after. subst before after.
  destruct (handle_messages_cases evt st) as [-> | (next & r & -> & _)].
  - split; [lia|]. split; [eauto|]. exists 0. eauto.
  - split; [apply upsert_length|]. split.
    + intros i m. apply upsert_keeps_keys.
    + apply upsert_one_change.
Qed.

(** X7: messages are only changed by events of their own kind: a system
    message by none, a user message only by a transcript delta, an assistant
    message only by a [response.text]. *)
Theorem other_roles_are_untouched (evt : AgentEvent) (st : State) (i : nat) (m : Message) :
  messages st !! i = Some m →
  role m = system
  ∨ (role m = user ∧ ¬ is_delta evt)
  ∨ (role m = assistant ∧ type evt ≠ Some "response.text") →
  messages (handleAgentMessage evt st) !! i = Some m.
Proof.
  intros L R.
  destruct (handle_messages_cases evt st)
    as [-> | (next & r & -> & _ & [(D & Rn & _) | (T & Rn & _)])]; [done|..];
    apply upsert_frame_role; [done| |done|];
    destruct R as [R | [[R N] | [R N]]]; congruence.
Qed.

End LedgerShape.

Lemma other_roles_are_untouched_witness :
  let st := @run decimal_runtime
              [OnMessage (delta (Some (Str "t1")) (Some (Nbr (Num 0))) "Hi");
               OnMessage {| type := Some "response.text"; turn_id := Some (Str "t1");
                            delta_counter := None; content := Some "Hello" |}] initial in
  messages (@handleAgentMessage decimal_runtime
              {| type := Some "response.text"; turn_id := Some (Str "t1");
                 delta_counter := None; content := Some " there" |} st) !! 0
  = Some {| role := user; text := "Hi"; turnId := Some "t1";
            chunks := Some [ {| counter := Num 0; chunk_text := "Hi" |} ] |}.
Proof.
  intros st. apply other_roles_are_untouched.
  - reflexivity.
  - right; left. split; [reflexivity|]. intros [D | D]; discriminate.
Defined.

(** * Further invariants of the controller *)

Section MoreInvariants.
Context `{JsRuntime}.
Implicit Types (next cur m : Message) (prev : list Message).

Lemma Forall_upsert (P : Message → Prop) next replace prev :
  Forall P prev → P next →
  (∀ cur, P cur → P (merged replace cur next)) →
  Forall P (upsert next replace prev).
Proof.
  rewrite !Forall_forall.
  intros A Pn Pm m [I | [-> | (cur & I & _ & ->)]]%elem_of_upsert; auto.
Qed.

Lemma span_keys_merged replace cur next :
  span_keys (merged replace cur next)
  = match chunks next with
    | Some _ => span_keys next
    | None => span_keys cur
    end.
Proof. unfold span_keys. cbn. by destruct (chunks next). Qed.

Lemma span_keys_sorted_chunks tid (turnMap : JsMap JsNum string) :
  span_keys (message_of tid turnMap) ≡ₚ turnMap.*1.
Proof.
  unfold span_keys, message_of, sorted_chunks. cbn.
  rewrite <- list_fmap_compose.
  rewrite (list_fmap_ext (counter ∘ entry_chunk) fst _) by done.
  by rewrite Array_sort_perm.
Qed.

Lemma Map_set_nonempty {K V} `{EqDecision K} (k : K) (v : V) (m : JsMap K V) :
  Map_set k v m ≠ [].
Proof. destruct m as [|[??]?]; simpl; [done|]. by case_decide. Qed.

(** The two invariants of the chunks, kept by every callback. *)
Lemma chunk_invariants_step a st :
  invariant st → store_well_keyed st → distinct_counters st →
  store_well_keyed (step a st) ∧ distinct_counters (step a st).
Proof.
  intros (_ & _ & ND) [E NE] DC.
  assert (∀ s next r, store_well_keyed s → distinct_counters s →
            NoDup (span_keys next) →
            store_well_keyed (upsertMessage next r s)
            ∧ distinct_counters (upsertMessage next r s)) as Up.
  { intros s next r W D Pn. split; [done|]. apply Forall_upsert; [done..|].
    intros cur Pc. rewrite span_keys_merged. by destruct (chunks next). }
  assert (∀ tid, store_well_keyed (clearTurn tid st)
                 ∧ distinct_counters (clearTurn tid st)) as Cl.
  { intros tid. split; [|done]. split; cbn.
    - destruct (decide (tid = "")) as [->|Ne];
        [apply lookup_delete_eq|by rewrite lookup_delete_ne].
    - by apply map_Forall_delete. }
  assert (∀ s t, store_well_keyed s → distinct_counters s →
            store_well_keyed (appendSystemMessage t s)
            ∧ distinct_counters (appendSystemMessage t s)) as Sy.
  { intros s t W D. split; [done|]. apply Forall_app. split; [done|].
    repeat constructor. }
  assert (store_well_keyed initial ∧ distinct_counters initial) as In.
  { split; [split; [done|apply map_Forall_empty]|constructor]. }
  destruct a as [evt| | |m|c|m]; cbn [step].
  - unfold handleAgentMessage.
    destruct (negb (truthy (type evt))); [done|].
    destruct (if bool_decide _ then turnId_of evt else None) as [tid|]; [done|].
    destruct (_ || _).
    + unfold updateUserTranscript.
      assert (∀ t x, store_well_keyed (replace_transcript t x st)
                     ∧ distinct_counters (replace_transcript t x st)) as Rp.
      { intros t x. unfold replace_transcript.
        destruct t as [tid|]; [|by apply Up; [..|constructor]].
        destruct (truthy (Some tid)); [|by apply Up; [..|constructor]].
        destruct (Cl tid). apply Up; [done..|constructor]. }
      destruct (turnId_of evt) as [tid|]; [|done].
      destruct (counter_of evt) as [c|]; [|done].
      destruct (truthy (Some tid)) eqn:T; [|done].
      apply truthy_Some in T. unfold record_chunk.
      apply (Up _ (message_of tid _)).
      * split; cbn.
        -- by rewrite lookup_insert_ne.
        -- apply map_Forall_insert_2; [apply Map_set_nonempty|done].
      * done.
      * rewrite span_keys_sorted_chunks. apply Map_set_NoDup.
        destruct (userChunksByTurn st !! tid) as [tm|] eqn:L; [|constructor].
        by apply (ND tid tm).
    + destruct (bool_decide _); [|done]. by apply Up; [..|constructor].
  - by apply Sy.
  - apply Sy; [|done]. split; [done|apply map_Forall_empty].
  - unfold onError. destruct (_ || _); [done|].
    by apply (Sy st ("Error: " +:+ m)).
  - unfold handleConnectClick. by destruct (negb _).
  - split; [done|]. repeat constructor.
Qed.

Lemma chunk_invariants_run acts st :
  invariant st → store_well_keyed st → distinct_counters st →
  store_well_keyed (run acts st) ∧ distinct_counters (run acts st).
Proof.
  revert st. induction acts as [|a acts IH]; intros st I W D; [done|].
  destruct (chunk_invariants_step a st I W D).
  apply IH; [by apply invariant_step|done..].
Qed.

Lemma chunk_invariants_reachable acts :
  store_well_keyed (run acts initial) ∧ distinct_counters (run acts initial).
Proof.
  apply chunk_invariants_run; [apply invariant_initial| |constructor].
  split; [done|apply map_Forall_empty].
Qed.

(** X8: in every reachable state the chunk store has no entry under the empty
    turn id, and every entry it has holds at least one chunk. *)
Theorem chunk_store_entries_are_usable (acts : list Action) :
  userChunksByTurn (run acts initial) !! "" = None
  ∧ ∀ tid turnMap, userChunksByTurn (run acts initial) !! tid = Some turnMap →
      tid ≠ "" ∧ turnMap ≠ [].
Proof.
  destruct (chunk_invariants_reachable acts) as [[E NE] _].
  split; [done|]. intros tid tm L. split; [|by apply (NE tid tm)].
  intros ->. congruence.
Qed.

(** X9: in every reachable state the chunks of a message have pairwise
    distinct counters, so the [span]s of a bubble have pairwise distinct
    keys. *)
Theorem span_keys_are_distinct (acts : list Action) (m : Message) :
  m ∈ messages (run acts initial) → NoDup (span_keys m).
Proof.
  intros I. destruct (chunk_invariants_reachable acts) as [_ D].
  unfold distinct_counters in D. rewrite Forall_forall in D. by apply D.
Qed.

(** X10: in every reachable state the bubble of a message shows the text of
    the message: the chunks it is drawn from, when there are some, spell out
    the same text. *)
Theorem bubble_shows_the_text (acts : list Action) (m : Message) :
  m ∈ messages (run acts initial) → MessageBubble m = text m.
Proof.
  intros I.
  destruct (invariant_run acts initial invariant_initial) as (_ & A & _).
  rewrite Forall_forall in A. specialize (A m I).
  unfold MessageBubble, bubble_content.
  destruct (role m) eqn:R; [|by rewrite bool_decide_eq_false_2|done].
  rewrite bool_decide_eq_true_2 by done.
  destruct (A R) as [-> | (cs & -> & -> & _)]; [done|].
  cbn [default from_option id]. by destruct cs.
Qed.

End MoreInvariants.

Lemma span_keys_are_distinct_witness :
  NoDup (span_keys
    {| role := user; text := "Hi there"; turnId := Some "t1";
       chunks := Some [ {| counter := Num 0; chunk_text := "Hi " |};
                        {| counter := Num 1; chunk_text := "there" |} ] |}).
Proof.
  apply (@span_keys_are_distinct decimal_runtime
           [OnMessage (delta (Some (Str "t1")) (Some (Nbr (Num 1))) "there");
            OnMessage (delta (Some (Str "t1")) (Some (Nbr (Num 0))) "Hi ")]).
  vm_compute. left.
Defined.

Lemma bubble_shows_the_text_witness :
  MessageBubble
    {| role := user; text := "Hi there"; turnId := Some "t1";
       chunks := Some [ {| counter := Num 0; chunk_text := "Hi " |};
                        {| counter := Num 1; chunk_text := "there" |} ] |}
  = "Hi there".
Proof.
  apply (@bubble_shows_the_text decimal_runtime
           [OnMessage (delta (Some (Str "t1")) (Some (Nbr (Num 1))) "there");
            OnMessage (delta (Some (Str "t1")) (Some (Nbr (Num 0))) "Hi ")]).
  vm_compute. left.
Defined.

(** * The chunk store and the ledger together *)

Section Coherence.
Context `{JsRuntime}.
Implicit Types (next cur m : Message) (prev : list Message).

Lemma list_find_insert_other {A} (P : A → Prop) `{!∀ x, Decision (P x)}
    (l : list A) j x y :
  l !! j = Some x → ¬ P x → ¬ P y → list_find P (<[j:=y]> l) = list_find P l.
Proof.
  revert j. induction l as [|z l IH]; intros j L Nx Ny; [done|].
  destruct j as [|j]; simpl in *.
  - injection L as ->. by rewrite !decide_False.
  - case_decide; [done|]. by rewrite IH.
Qed.

Lemma list_find_snoc_other {A} (P : A → Prop) `{!∀ x, Decision (P x)}
    (l : list A) y :
  ¬ P y ∨ is_Some (list_find P l) → list_find P (l ++ [y]) = list_find P l.
Proof.
  intros C. destruct (list_find P l) as [[i x]|] eqn:F.
  - by apply list_find_app_l.
  - rewrite list_find_app_r by done. simpl.
    destruct C as [N | [? ?]]; [|done]. by rewrite decide_False.
Qed.

(** An upsert under another key, or an append behind the message of the turn,
    leaves the transcript of the turn as it was. *)
Lemma transcript_upsert_other tid next replace prev :
  ¬ same_key (Some tid) user next
  ∨ (truthy (turnId next) = false ∧ is_Some (transcript tid prev)) →
  transcript tid (upsert next replace prev) = transcript tid prev.
Proof.
  intros C. unfold transcript, upsert.
  assert (¬ same_key (Some tid) user next
          ∨ is_Some (list_find (same_key (Some tid) user) prev)) as C'.
  { destruct C as [?|[_ S]]; [by left|right].
    unfold transcript in S. by apply fmap_is_Some in S. }
  destruct (truthy (turnId next)) eqn:T; simpl.
  - destruct C as [N | [? _]]; [|done].
    destruct (list_find (same_key (turnId next) (role next)) prev)
      as [[j cur]|] eqn:F.
    + apply list_find_Some in F as (Lj & [KT KR] & _).
      rewrite (list_find_insert_other _ _ j cur); [done..| |].
      * intros [??]. apply N. split; congruence.
      * intros [??]. apply N. split; cbn in *; congruence.
    + by rewrite list_find_snoc_other by by left.
  - by rewrite list_find_snoc_other.
Qed.

Lemma coherent_step a st :
  ¬ is_connect_failed a → coherent st → coherent (step a st).
Proof.
  intros NF C.
  assert (∀ t, coherent (appendSystemMessage t st)) as Sy.
  { intros t tid tm L. cbn. rewrite <- (C tid tm L).
    apply (transcript_upsert_other tid (system_message t) false). left.
    by intros [??]. }
  destruct a as [evt| | |m|c|m]; cbn [step].
  - unfold handleAgentMessage.
    destruct (negb (truthy (type evt))); [done|].
    destruct (if bool_decide _ then turnId_of evt else None) as [tid|].
    { intros t tm L. cbn in L. apply lookup_delete_Some in L as [_ L].
      by apply C. }
    destruct (_ || _).
    + unfold updateUserTranscript.
      assert (coherent (replace_transcript (turnId_of evt) (content_of evt) st)) as Rp.
      { unfold replace_transcript. intros t tm L.
        cbn [upsertMessage setMessages messages userChunksByTurn] in *.
        destruct (turnId_of evt) as [tid|] eqn:T.
        - destruct (truthy (Some tid)) eqn:Tr; cbn in L |- *.
          + apply lookup_delete_Some in L as [Ne L].
            rewrite transcript_upsert_other; [by apply C|]. left.
            intros [KT _]. cbn in KT. congruence.
          + rewrite transcript_upsert_other; [by apply C|]. right.
            split; [done|]. by rewrite (C t tm L).
        - rewrite transcript_upsert_other; [by apply C|]. left.
          by intros [??]. }
      destruct (turnId_of evt) as [tid|] eqn:T; [|done].
      destruct (counter_of evt) as [k|]; [|done].
      destruct (truthy (Some tid)) eqn:Tr; [|done].
      apply truthy_Some in Tr. intros t tm L.
      destruct (transcript_record_chunk tid k (content_of evt) st Tr) as [S M].
      rewrite S in L. destruct (decide (tid = t)) as [<-|Ne].
      * rewrite lookup_insert_eq in L. injection L as <-. exact M.
      * rewrite lookup_insert_ne in L by done.
        unfold record_chunk. cbn [upsertMessage setMessages setChunks messages].
        rewrite transcript_upsert_other; [by apply C|]. left.
        intros [KT _]. cbn in KT. congruence.
    + destruct (bool_decide _); [|done]. intros t tm L.
      unfold appendAssistantMessage. cbn [upsertMessage setMessages messages].
      rewrite transcript_upsert_other; [by apply C|]. left. by intros [??].
  - intros t tm L. by apply (Sy "Connected").
  - intros t tm L. cbn in L. by rewrite lookup_empty in L.
  - unfold onError. destruct (_ || _); [done|].
    by apply (Sy ("Error: " +:+ m)).
  - unfold handleConnectClick. destruct (negb _); [done|].
    intros t tm L. cbn in L. by rewrite lookup_empty in L.
  - done.
Qed.

(** X11: as long as no connection attempt has failed, every turn that has
    chunks in the store has its user message in the ledger, and the message
    is the reassembly of exactly those chunks. *)
Theorem store_and_ledger_agree (acts : list Action) (tid : string)
    (turnMap : JsMap JsNum string) :
  Forall (λ a, ¬ is_connect_failed a) acts →
  userChunksByTurn (run acts initial) !! tid = Some turnMap →
  transcript tid (messages (run acts initial)) = Some (message_of tid turnMap).
Proof.
  intros NF. revert tid turnMap. change (coherent (run acts initial)).
  assert (coherent initial) as C
    by (intros t tm L; cbn in L; by rewrite lookup_empty in L).
  revert C. generalize initial.
  induction NF as [|a acts Na NF IH]; intros st C; [done|].
  apply IH. by apply coherent_step.
Qed.

End Coherence.

Lemma store_and_ledger_agree_witness :
  transcript "t1"
    (messages (@run decimal_runtime
       [OnConnect;
        OnMessage (delta (Some (Str "t1")) (Some (Nbr (Num 1))) "there");
        OnMessage (delta (Some (Str "t1")) (Some (Nbr (Num 0))) "Hi ")] initial))
  = Some (message_of "t1" [(Num 1, "there"); (Num 0, "Hi ")]).
Proof.
  apply (@store_and_ledger_agree decimal_runtime).
  - repeat constructor; intros [].
  - reflexivity.
Defined.

(** * Assistant text and events without a turn *)

Section Accumulation.
Context `{JsRuntime}.
Implicit Types (next cur m : Message) (prev : list Message).

Lemma join_cons (x : string) (xs : list string) : join (x :: xs) = x +:+ join xs.
Proof.
  unfold join. destruct xs as [|y xs]; cbn [String.concat].
  - by rewrite append_nil_r.
  - by rewrite append_nil_l.
Qed.

Lemma reply_upsert_accumulate tid x prev :
  tid ≠ "" →
  text <$> reply tid
    (upsert {| role := assistant; text := x; turnId := Some tid; chunks := None |}
       false prev)
  = Some (default "" (text <$> reply tid prev) +:+ x).
Proof.
  intros N. apply truthy_Some in N. unfold reply.
  set (next := {| role := assistant; text := x; turnId := Some tid; chunks := None |}).
  destruct (list_find (same_key (Some tid) assistant) prev) as [[i cur]|] eqn:F.
  - rewrite (upsert_found next false prev i cur) by done.
    pose proof F as (L & K & Least)%list_find_Some.
    assert (list_find (same_key (Some tid) assistant)
              (<[i:=merged false cur next]> prev)
            = Some (i, merged false cur next)) as ->.
    { apply list_find_insert_Some. right; left.
      split_and!; [done..|by eapply lookup_lt_Some|by apply merged_same_key|done]. }
    done.
  - rewrite (upsert_missing next false prev) by done.
    rewrite list_find_app_r by done. cbn. by rewrite decide_True.
Qed.

(** X12: [response.text] events of one turn accumulate: after a run of them
    the assistant message of the turn reads what it read before, if it was
    there, followed by the contents of the events in arrival order. *)
Theorem assistant_text_accumulates (tid : string) (evs : list AgentEvent) (st : State) :
  tid ≠ "" → evs ≠ [] →
  Forall (λ e, type e = Some "response.text" ∧ turnId_of e = Some tid) evs →
  text <$> reply tid (messages (run (OnMessage <$> evs) st))
  = Some (default "" (text <$> reply tid (messages st)) +:+ join (content_of <$> evs)).
Proof.
  intros N NE F. revert st NE.
  induction F as [|e evs [T I] F IH]; intros st NE; [done|].
  rewrite fmap_cons, run_cons. cbn [step].
  rewrite (handle_response_text _ _ T). unfold appendAssistantMessage.
  assert (text <$> reply tid
            (messages (upsertMessage
               {| role := assistant; turnId := turnId_of e;
                  text := content_of e; chunks := None |} false st))
          = Some (default "" (text <$> reply tid (messages st)) +:+ content_of e))
    as Step.
  { rewrite I. cbn [upsertMessage setMessages messages].
    by apply reply_upsert_accumulate. }
  destruct evs as [|e' evs].
  - rewrite !fmap_nil. cbn [run foldl].
    rewrite Step, fmap_cons, fmap_nil, (join_cons (content_of e) []).
    change (join []) with "". by rewrite append_nil_r.
  - rewrite IH by done. rewrite Step. cbn [default from_option id].
    rewrite (fmap_cons content_of e).
    by rewrite (join_cons (content_of e) (content_of <$> e' :: evs)), append_assoc.
Qed.

(** X13: events without a usable turn id are never merged: each transcript
    delta and each [response.text] whose turn id is missing or empty adds its
    own message at the end of the ledger, and the chunk store stays as it
    was. *)
Theorem events_without_turn_are_appended (evs : list AgentEvent) (st : State) :
  Forall (λ e, (is_delta e ∨ type e = Some "response.text")
               ∧ truthy (turnId_of e) = false) evs →
  messages (run (OnMessage <$> evs) st) = messages st ++ (appended_message <$> evs)
  ∧ userChunksByTurn (run (OnMessage <$> evs) st) = userChunksByTurn st.
Proof.
  intros F. revert st.
  induction F as [|e evs [K T] F IH]; intros st.
  { split; [|done]. by rewrite app_nil_r. }
  rewrite fmap_cons, run_cons. cbn [step].
  destruct (IH (handleAgentMessage e st)) as [-> ->].
  assert (messages (handleAgentMessage e st) = messages st ++ [appended_message e]
          ∧ userChunksByTurn (handleAgentMessage e st) = userChunksByTurn st)
    as [-> ->].
  { unfold appended_message. destruct K as [D | R].
    - rewrite (handle_delta _ _ D), (update_fallback _ _ (or_introl T)).
      rewrite bool_decide_eq_false_2 by (destruct D as [D|D]; rewrite D; done).
      unfold replace_transcript.
      cbn [upsertMessage setMessages messages userChunksByTurn].
      rewrite upsert_falsy by done.
      destruct (turnId_of e) as [tid|]; [|done]. by rewrite T.
    - rewrite (handle_response_text _ _ R), bool_decide_eq_true_2 by done.
      unfold appendAssistantMessage.
      cbn [upsertMessage setMessages messages userChunksByTurn].
      by rewrite upsert_falsy. }
  split; [|done]. by rewrite fmap_cons, <- app_assoc.
Qed.

End Accumulation.

Lemma assistant_text_accumulates_witness :
  text <$> reply "7" (messages (@run decimal_runtime
    (OnMessage <$>
       [ {| type := Some "response.text"; turn_id := Some (Nbr (Num 7));
            delta_counter := None; content := Some "Hello" |};
         {| type := Some "response.text"; turn_id := Some (Str "7");
            delta_counter := None; content := Some " world" |} ]) initial))
  = Some "Hello world".
Proof.
  apply (@assistant_text_accumulates decimal_runtime "7"
           [ {| type := Some "response.text"; turn_id := Some (Nbr (Num 7));
                delta_counter := None; content := Some "Hello" |};
             {| type := Some "response.text"; turn_id := Some (Str "7");
                delta_counter := None; content := Some " world" |} ] initial).
  - discriminate.
  - discriminate.
  - repeat constructor.
Defined.

Lemma events_without_turn_are_appended_witness :
  messages (@run decimal_runtime
    (OnMessage <$>
       [ delta None (Some (Nbr (Num 0))) "a";
         {| type := Some "response.text"; turn_id := Some (Str "");
            delta_counter := None; content := Some "b" |};
         delta None (Some (Nbr (Num 0))) "c" ]) initial)
  = [ {| role := user; text := "a"; turnId := None; chunks := Some [] |};
      {| role := assistant; text := "b"; turnId := Some ""; chunks := None |};
      {| role := user; text := "c"; turnId := None; chunks := Some [] |} ].
Proof.
  apply (@events_without_turn_are_appended decimal_runtime
           [ delta None (Some (Nbr (Num 0))) "a";
             {| type := Some "response.text"; turn_id := Some (Str "");
                delta_counter := None; content := Some "b" |};
             delta None (Some (Nbr (Num 0))) "c" ] initial).
  repeat constructor; by right.
Defined.

(** * Turns are independent *)

Section Turns.
Context `{JsRuntime}.
Implicit Types (next cur m : Message) (prev : list Message).

(** What an event does to the entry of its own turn depends on that entry
    alone. *)
Lemma handle_store_local evt st1 st2 t :
  turnId_of evt = Some t →
  userChunksByTurn st1 !! t = userChunksByTurn st2 !! t →
  userChunksByTurn (handleAgentMessage evt st1) !! t
  = userChunksByTurn (handleAgentMessage evt st2) !! t.
Proof.
  intros T E. unfold handleAgentMessage.
  destruct (negb (truthy (type evt))); [done|]. rewrite T.
  destruct (bool_decide (type evt = Some "turn.end")).
  { cbn. by rewrite !lookup_delete_eq. }
  destruct (_ || _).
  - unfold updateUserTranscript. rewrite T.
    assert (∀ x, userChunksByTurn (replace_transcript (Some t) x st1) !! t
                 = userChunksByTurn (replace_transcript (Some t) x st2) !! t) as R.
    { intros x. unfold replace_transcript.
      destruct (truthy (Some t)); cbn; [by rewrite !lookup_delete_eq|done]. }
    destruct (counter_of evt) as [c|]; [|done].
    destruct (truthy (Some t)); [|done].
    cbn. by rewrite !lookup_insert_eq, E.
  - by destruct (bool_decide _).
Qed.

(** X14: events of different turns commute on the chunk store: processed in
    either order they leave the same store. *)
Theorem turns_commute_on_the_store (e1 e2 : AgentEvent) (st : State) :
  turnId_of e1 ≠ turnId_of e2 →
  userChunksByTurn (handleAgentMessage e1 (handleAgentMessage e2 st))
  = userChunksByTurn (handleAgentMessage e2 (handleAgentMessage e1 st)).
Proof.
  intros Ne. apply map_eq. intros k.
  destruct (decide (turnId_of e1 = Some k)) as [T1|T1];
    destruct (decide (turnId_of e2 = Some k)) as [T2|T2].
  - congruence.
  - rewrite (handle_store_local e1 _ st k T1) by by apply handle_store_frame.
    by rewrite (handle_store_frame e2 _ k T2).
  - rewrite (handle_store_local e2 _ st k T2) by by apply handle_store_frame.
    by rewrite (handle_store_frame e1 _ k T1).
  - by rewrite !handle_store_frame.
Qed.

Lemma upsert_cons next replace x prev :
  truthy (turnId next) = true →
  upsert next replace (x :: prev)
  = if decide (same_key (turnId next) (role next) x)
    then merged replace x next :: prev
    else x :: upsert next replace prev.
Proof.
  intros T. unfold upsert. rewrite T. cbn [negb list_find].
  case_decide; [done|].
  by destruct (list_find _ prev) as [[i cur]|].
Qed.

Lemma of_turn_upsert_same t next replace prev :
  turnId next = Some t →
  of_turn t (upsert next replace prev) = upsert next replace (of_turn t prev).
Proof.
  intros T. unfold of_turn. destruct (truthy (turnId next)) eqn:Tr.
  - induction prev as [|x prev IH].
    + unfold upsert. rewrite Tr. cbn. by rewrite decide_True.
    + rewrite upsert_cons by done. case_decide as K.
      * destruct K as [KT KR].
        rewrite !filter_cons_True by (cbn; congruence).
        rewrite upsert_cons by done. by rewrite decide_True.
      * destruct (decide (turnId x = Some t)) as [Tx|Tx].
        -- rewrite !filter_cons_True by done.
           rewrite upsert_cons by done. by rewrite decide_False, IH.
        -- by rewrite !filter_cons_False.
  - rewrite !upsert_falsy by done. rewrite filter_app.
    by rewrite (filter_cons_True _ next).
Qed.

Lemma of_turn_upsert_other t next replace prev :
  turnId next ≠ Some t →
  of_turn t (upsert next replace prev) = of_turn t prev.
Proof.
  intros T. unfold of_turn. destruct (truthy (turnId next)) eqn:Tr.
  - induction prev as [|x prev IH].
    + unfold upsert. rewrite Tr. cbn. by rewrite decide_False.
    + rewrite upsert_cons by done. case_decide as K.
      * destruct K as [KT KR].
        rewrite !filter_cons_False by (cbn; congruence). done.
      * destruct (decide (turnId x = Some t)) as [Tx|Tx].
        -- by rewrite !filter_cons_True, IH.
        -- by rewrite !filter_cons_False.
  - rewrite upsert_falsy by done. rewrite filter_app.
    rewrite (filter_cons_False _ next) by done. by rewrite app_nil_r.
Qed.

Lemma handle_ledger_other_turn evt st t :
  turnId_of evt ≠ Some t →
  of_turn t (messages (handleAgentMessage evt st)) = of_turn t (messages st).
Proof.
  intros T.
  destruct (handle_messages_cases evt st) as [-> | (next & r & -> & Tn & _)];
    [done|].
  apply of_turn_upsert_other. congruence.
Qed.

Lemma handle_ledger_local evt st1 st2 t :
  turnId_of evt = Some t →
  userChunksByTurn st1 !! t = userChunksByTurn st2 !! t →
  of_turn t (messages st1) = of_turn t (messages st2) →
  of_turn t (messages (handleAgentMessage evt st1))
  = of_turn t (messages (handleAgentMessage evt st2)).
Proof.
  intros T E M. unfold handleAgentMessage.
  destruct (negb (truthy (type evt))); [done|]. rewrite T.
  destruct (bool_decide (type evt = Some "turn.end")); [done|].
  assert (∀ next r s1 s2, turnId next = Some t → messages s1 = messages st1 →
            messages s2 = messages st2 →
            of_turn t (messages (upsertMessage next r s1))
            = of_turn t (messages (upsertMessage next r s2))) as Up.
  { intros next r s1 s2 Tn E1 E2. cbn [upsertMessage setMessages messages].
    rewrite !of_turn_upsert_same by done. by rewrite E1, E2, M. }
  destruct (_ || _).
  - unfold updateUserTranscript. rewrite T.
    assert (∀ x, of_turn t (messages (replace_transcript (Some t) x st1))
                 = of_turn t (messages (replace_transcript (Some t) x st2))) as R.
    { intros x. unfold replace_transcript.
      apply Up; [done|by destruct (truthy (Some t))..]. }
    destruct (counter_of evt) as [c|]; [|done].
    destruct (truthy (Some t)); [|done].
    unfold record_chunk. rewrite E. by apply Up.
  - destruct (bool_decide _); [|done].
    unfold appendAssistantMessage. rewrite T. by apply Up.
Qed.

Lemma run_projection t evs st1 st2 :
  userChunksByTurn st1 !! t = userChunksByTurn st2 !! t →
  of_turn t (messages st1) = of_turn t (messages st2) →
  userChunksByTurn (run (OnMessage <$> evs) st1) !! t
  = userChunksByTurn (run (OnMessage <$> events_of_turn t evs) st2) !! t
  ∧ of_turn t (messages (run (OnMessage <$> evs) st1))
    = of_turn t (messages (run (OnMessage <$> events_of_turn t evs) st2)).
Proof.
  revert st1 st2. induction evs as [|e evs IH]; intros st1 st2 E M; [done|].
  unfold events_of_turn. rewrite fmap_cons, run_cons. cbn [step].
  destruct (decide (turnId_of e = Some t)) as [T|T].
  - rewrite filter_cons_True by done. rewrite fmap_cons, run_cons. cbn [step].
    apply IH; [by apply handle_store_local|by apply handle_ledger_local].
  - rewrite filter_cons_False by done. apply IH.
    + by rewrite handle_store_frame.
    + by rewrite handle_ledger_other_turn.
Qed.

(** X15: what a run of events leaves for one turn, its chunk entry and its
    messages in ledger order, is what the events of that turn alone would
    have left: the events of other turns, however interleaved, do not show. *)
Theorem a_turn_sees_only_its_events (t : string) (evs : list AgentEvent) (st : State) :
  userChunksByTurn (run (OnMessage <$> evs) st) !! t
  = userChunksByTurn (run (OnMessage <$> events_of_turn t evs) st) !! t
  ∧ of_turn t (messages (run (OnMessage <$> evs) st))
    = of_turn t (messages (run (OnMessage <$> events_of_turn t evs) st)).
Proof. by apply run_projection. Qed.

End Turns.

Lemma turns_commute_on_the_store_witness :
  let e1 := delta (Some (Str "a")) (Some (Nbr (Num 0))) "x" in
  let e2 := {| type := Some "turn.end"; turn_id := Some (Str "b");
               delta_counter := None; content := None |} in
  let st := @run decimal_runtime
              [OnMessage (delta (Some (Str "b")) (Some (Nbr (Num 3))) "y")] initial in
  userChunksByTurn (@handleAgentMessage decimal_runtime e1
                      (@handleAgentMessage decimal_runtime e2 st))
  = userChunksByTurn (@handleAgentMessage decimal_runtime e2
                        (@handleAgentMessage decimal_runtime e1 st)).
Proof.
  intros e1 e2 st. apply turns_commute_on_the_store. discriminate.
Defined.

(** * Ends of turns, restarts and the session *)

Section Lifecycle.
Context `{JsRuntime}.

Lemma setChunks_id (f : gmap string (JsMap JsNum string) → gmap string (JsMap JsNum string))
    (st : State) :
  f (userChunksByTurn st) = userChunksByTurn st → setChunks f st = st.
Proof. intros E. destruct st. unfold setChunks. cbn in *. by rewrite E. Qed.

(** X16: a [turn.end] for a turn without chunks changes nothing, and a
    [turn.end] repeated changes nothing more: ending a turn is idempotent. *)
Theorem turn_end_is_idempotent (evt : AgentEvent) (st : State) :
  type evt = Some "turn.end" →
  handleAgentMessage evt (handleAgentMessage evt st) = handleAgentMessage evt st
  ∧ ((∀ tid, turnId_of evt = Some tid → userChunksByTurn st !! tid = None) →
     handleAgentMessage evt st = st).
Proof.
  intros T. unfold handleAgentMessage. rewrite T. cbn [truthy negb String.eqb].
  rewrite bool_decide_eq_true_2 by done.
  rewrite !bool_decide_eq_false_2 by done. cbn [orb].
  destruct (turnId_of evt) as [tid|]; [|done]. split.
  - unfold clearTurn. apply setChunks_id. cbn. apply delete_id, lookup_delete_eq.
  - intros U. unfold clearTurn. apply setChunks_id. apply delete_id. by apply U.
Qed.

(** X17: a delta without a counter restarts its turn: the chunks recorded so
    far are dropped, and the next delta of the turn that has a counter is the
    only chunk of the turn and the whole text of its message. *)
Theorem counterless_delta_restarts_turn
    (e0 d : AgentEvent) (tid : string) (c : JsNum) (st : State) :
  is_delta e0 → turnId_of e0 = Some tid → tid ≠ "" → delta_counter e0 = None →
  is_delta d → turnId_of d = Some tid → counter_of d = Some c →
  let st0 := handleAgentMessage e0 st in
  let st1 := handleAgentMessage d st0 in
  userChunksByTurn st0 !! tid = None
  ∧ (text <$> transcript tid (messages st0)) = Some (content_of e0)
  ∧ userChunksByTurn st1 !! tid = Some [(c, content_of d)]
  ∧ transcript tid (messages st1)
    = Some {| role := user; text := content_of d; turnId := Some tid;
              chunks := Some [ {| counter := c; chunk_text := content_of d |} ] |}.
Proof.
  intros D0 T0 N C0 D Td Cd st0 st1.
  assert (userChunksByTurn st0 !! tid = None) as S0.
  { subst st0. rewrite (handle_delta _ _ D0), (update_fallback _ _ (or_intror C0)).
    unfold replace_transcript. rewrite T0, (proj2 (truthy_Some tid) N).
    cbn. apply lookup_delete_eq. }
  split; [done|]. split.
  { subst st0. rewrite (handle_delta _ _ D0), (update_fallback _ _ (or_intror C0)).
    unfold replace_transcript. rewrite T0. cbn [upsertMessage setMessages messages].
    set (next := {| role := user; text := content_of e0; turnId := Some tid;
                    chunks := Some [] |}).
    destruct (list_find_upsert_replace next
                (messages (if truthy (Some tid) then clearTurn tid st else st)) [])
      as [i F]; [by apply truthy_Some|done|].
    unfold transcript. cbn [turnId role next] in F. by rewrite F. }
  subst st1. rewrite (handle_delta _ _ D), (update_normal _ _ _ _ Td N Cd).
  destruct (transcript_record_chunk tid c (content_of d) st0 N) as [S M].
  rewrite S, M, S0. cbn [default from_option id Map_set].
  rewrite lookup_insert_eq. split; [done|].
  unfold message_of, sorted_chunks, join. cbn. by destruct (content_of d).
Qed.

Lemma run_app acts1 acts2 st : run (acts1 ++ acts2) st = run acts2 (run acts1 st).
Proof. apply foldl_app. Qed.

(** X18: a click on the connect button while no session is active and none
    is being opened forgets the past: whatever happened before, the
    controller goes on as from the initial state. *)
Theorem connect_click_forgets_the_past (before after : list Action) :
  isSessionActive (run before initial) = false →
  run (before ++ ConnectClick false :: after) initial = run after initial.
Proof.
  intros A. rewrite run_app, run_cons. f_equal. cbn [step].
  unfold handleConnectClick. rewrite A. cbn [negb andb].
  unfold setError, setMessages, setChunks.
  cbn [messages userChunksByTurn isSessionActive error]. by rewrite A.
Qed.

(** X19: the error callback has two outcomes.  A message in which
    [insufficient_balance] or [402] occurs anywhere sets the funds banner and
    leaves the ledger alone; any other message is appended to the ledger as a
    system message and leaves the banner alone.  The chunk store and the
    session flag are untouched in both. *)
Theorem error_goes_to_banner_or_ledger (errorMessage : string) (st : State) :
  (substring "insufficient_balance" errorMessage ∨ substring "402" errorMessage →
   onError errorMessage st = setError (Some insufficient_funds_text) st)
  ∧ (¬ substring "insufficient_balance" errorMessage →
     ¬ substring "402" errorMessage →
     onError errorMessage st
     = setMessages (λ prev, prev ++ [system_message ("Error: " +:+ errorMessage)]) st).
Proof.
  unfold onError, substring. split.
  - intros S.
    assert (includes errorMessage "insufficient_balance"
            || includes errorMessage "402" = true) as ->; [|done].
    apply orb_true_iff. by rewrite !includes_spec.
  - intros N1 N2.
    assert (includes errorMessage "insufficient_balance"
            || includes errorMessage "402" = false) as ->; [|done].
    apply orb_false_iff.
    split; apply not_true_is_false; by rewrite includes_spec.
Qed.

(** X20: the session flag and the error banner are out of reach of the event
    feed: no run of events changes them. *)
Theorem events_leave_flags_alone (evs : list AgentEvent) (st : State) :
  isSessionActive (run (OnMessage <$> evs) st) = isSessionActive st
  ∧ error (run (OnMessage <$> evs) st) = error st.
Proof.
  revert st. induction evs as [|e evs IH]; intros st; [done|].
  rewrite fmap_cons, run_cons. cbn [step].
  destruct (IH (handleAgentMessage e st)) as [-> ->].
  unfold handleAgentMessage.
  destruct (negb (truthy (type e))); [done|].
  destruct (if bool_decide _ then turnId_of e else None); [done|].
  destruct (_ || _).
  - unfold updateUserTranscript.
    assert (∀ t x, isSessionActive (replace_transcript t x st) = isSessionActive st
                   ∧ error (replace_transcript t x st) = error st) as R.
    { intros t x. unfold replace_transcript.
      destruct t as [tid|]; [|done]. by destruct (truthy (Some tid)). }
    destruct (turnId_of e) as [tid|]; [|done].
    destruct (counter_of e) as [c|]; [|done].
    by destruct (truthy (Some tid)).
  - by destruct (bool_decide _).
Qed.

(** X21: reassembly loses nothing: the chunks of the message are the entries
    of the turn, each once, whatever their counters are, [NaN] included. *)
Theorem reassembly_keeps_every_chunk (turnMap : JsMap JsNum string) :
  sorted_chunks turnMap ≡ₚ entry_chunk <$> turnMap
  ∧ length (sorted_chunks turnMap) = length turnMap.
Proof.
  assert (sorted_chunks turnMap ≡ₚ entry_chunk <$> turnMap) as P.
  { unfold sorted_chunks. by rewrite Array_sort_perm. }
  split; [done|]. by rewrite P, length_fmap.
Qed.

End Lifecycle.

Lemma turn_end_is_idempotent_witness :
  let evt := {| type := Some "turn.end"; turn_id := Some (Nbr (Num 7));
                delta_counter := None; content := None |} in
  let st := @run decimal_runtime
              [OnMessage (delta (Some (Str "7")) (Some (Nbr (Num 0))) "Hi")] initial in
  @handleAgentMessage decimal_runtime evt (@handleAgentMessage decimal_runtime evt st)
  = @handleAgentMessage decimal_runtime evt st
  ∧ @handleAgentMessage decimal_runtime evt initial = initial.
Proof.
  intros evt st. split.
  - by apply (@turn_end_is_idempotent decimal_runtime evt st).
  - apply (@turn_end_is_idempotent decimal_runtime evt initial); [done|].
    intros tid _. reflexivity.
Defined.

Lemma counterless_delta_restarts_turn_witness :
  let st := @run decimal_runtime
              [OnMessage (delta (Some (Str "t1")) (Some (Nbr (Num 0))) "Hi ");
               OnMessage (delta (Some (Str "t1")) (Some (Nbr (Num 1))) "there")] initial in
  let st0 := @handleAgentMessage decimal_runtime (delta (Some (Str "t1")) None "Hello") st in
  let st1 := @handleAgentMessage decimal_runtime
               (delta (Some (Str "t1")) (Some (Str "4")) "!") st0 in
  userChunksByTurn st0 !! "t1" = None
  ∧ (text <$> transcript "t1" (messages st0)) = Some "Hello"
  ∧ userChunksByTurn st1 !! "t1" = Some [(Num 4, "!")]
  ∧ transcript "t1" (messages st1)
    = Some {| role := user; text := "!"; turnId := Some "t1";
              chunks := Some [ {| counter := Num 4; chunk_text := "!" |} ] |}.
Proof.
  intros st.
  apply (@counterless_delta_restarts_turn decimal_runtime
           (delta (Some (Str "t1")) None "Hello")
           (delta (Some (Str "t1")) (Some (Str "4")) "!") "t1" (Num 4) st);
    first [by left|reflexivity|discriminate].
Defined.

Lemma connect_click_forgets_the_past_witness :
  @run decimal_runtime
    ([OnConnect; OnMessage (delta (Some (Str "t1")) (Some (Nbr (Num 0))) "Hi");
      OnDisconnect]
     ++ ConnectClick false :: [OnConnect]) initial
  = @run decimal_runtime [OnConnect] initial.
Proof.
  apply (@connect_click_forgets_the_past decimal_runtime). reflexivity.
Defined.

(** A message that merely contains the digits 402 raises the funds banner. *)
Example error_with_402_inside :
  onError "timed out after 4020 ms" initial
  = setError (Some insufficient_funds_text) initial.
Proof. reflexivity. Qed.

(** * The later text at a counter, and the turn a turn id names *)

Section Overwrite.
Context `{JsRuntime}.

Lemma Map_set_only {K V} `{EqDecision K} (k : K) (v x : V) (m : JsMap K V) :
  NoDup m.*1 → (k, x) ∈ Map_set k v m → x = v.
Proof.
  intros ND I. pose proof (Map_set_NoDup k v m ND) as ND'.
  pose proof (Map_set_elem k v m) as Iv.
  apply list_elem_of_lookup in I as [i Li].
  apply list_elem_of_lookup in Iv as [j Lj].
  assert (i = j) as ->.
  { apply (NoDup_lookup _ i j k ND'); rewrite list_lookup_fmap.
    - by rewrite Li.
    - by rewrite Lj. }
  congruence.
Qed.

(** C7: two deltas with the same counter for the same turn keep only the later
    text for that counter.  After both, the entries of the turn are those from
    before the two deltas with the later text set at the counter: the later
    text is there, the chunk of the message at that counter carries it, every
    other counter keeps its text, and when the counters of the turn were
    distinct, as they are in every reachable state, no other text stands at
    the counter, in the store or in the message.  The whole state is the one
    the second delta alone would have left. *)
Theorem last_write_wins (e1 e2 : AgentEvent) (tid : string) (c : JsNum) (st : State) :
  is_delta e1 → is_delta e2 →
  turnId_of e1 = Some tid → turnId_of e2 = Some tid → tid ≠ "" →
  counter_of e1 = Some c → counter_of e2 = Some c →
  let before := default [] (userChunksByTurn st !! tid) in
  let st2 := handleAgentMessage e2 (handleAgentMessage e1 st) in
  let turnMap := Map_set c (content_of e2) before in
  st2 = handleAgentMessage e2 st
  ∧ userChunksByTurn st2 !! tid = Some turnMap
  ∧ transcript tid (messages st2) = Some (message_of tid turnMap)
  ∧ (c, content_of e2) ∈ turnMap
  ∧ {| counter := c; chunk_text := content_of e2 |} ∈ sorted_chunks turnMap
  ∧ (∀ k x, k ≠ c → (k, x) ∈ turnMap ↔ (k, x) ∈ before)
  ∧ (NoDup before.*1 →
     (∀ x, (c, x) ∈ turnMap → x = content_of e2)
     ∧ ∀ ch, ch ∈ sorted_chunks turnMap → counter ch = c →
         chunk_text ch = content_of e2).
Proof.
  intros D1 D2 T1 T2 N C1 C2 before st2 turnMap.
  assert (st2 = handleAgentMessage e2 st) as E
    by by apply (second_delta_alone e1 e2 tid c).
  destruct (transcript_record_chunk tid c (content_of e2) st N) as [S M].
  assert (∀ ch, ch ∈ sorted_chunks turnMap →
            (counter ch, chunk_text ch) ∈ turnMap) as Back.
  { intros ch I. unfold sorted_chunks in I.
    apply list_elem_of_fmap in I as ([k x] & -> & I).
    by rewrite Array_sort_perm in I. }
  split; [done|]. rewrite E, (handle_delta _ _ D2), (update_normal _ _ _ _ T2 N C2).
  split; [by rewrite S, lookup_insert_eq|].
  split; [exact M|].
  split; [apply Map_set_elem|].
  split.
  { unfold sorted_chunks.
    apply (list_elem_of_fmap_2 entry_chunk _ (c, content_of e2)).
    rewrite Array_sort_perm. apply Map_set_elem. }
  split; [intros k x Ne; by apply Map_set_other|].
  intros ND. split.
  - intros x. by apply Map_set_only.
  - intros ch I <-. apply (Map_set_only (counter ch) _ _ before ND). by apply Back.
Qed.

(** C10: a numeric [turn_id] and its string rendering name one turn, the
    rendering, for every handler.  Both forms of an event are read as that
    turn id and processed with the same effect.  A [turn.end] removes the
    chunk entry under the rendering; a delta with a counter records its chunk
    in the entry under the rendering and writes the user message with that
    key; a [response.text] adds its content to the assistant message with
    that key.  No chunk entry under another turn id changes, and no message of
    another turn id changes or moves. *)
Theorem turn_id_coercion (evt : AgentEvent) (n : JsNum) (st : State) :
  let a := with_turn_id (Nbr n) evt in
  let b := with_turn_id (Str (String_ n)) evt in
  let tid := String_ n in
  handleAgentMessage a st = handleAgentMessage b st
  ∧ turnId_of a = Some tid ∧ turnId_of b = Some tid
  ∧ (type evt = Some "turn.end" →
     userChunksByTurn (handleAgentMessage a st) = delete tid (userChunksByTurn st)
     ∧ messages (handleAgentMessage a st) = messages st)
  ∧ (is_delta evt → tid ≠ "" → ∀ c, counter_of evt = Some c →
     let turnMap :=
       Map_set c (content_of evt) (default [] (userChunksByTurn st !! tid)) in
     userChunksByTurn (handleAgentMessage a st) !! tid = Some turnMap
     ∧ transcript tid (messages (handleAgentMessage a st))
       = Some (message_of tid turnMap))
  ∧ (type evt = Some "response.text" → tid ≠ "" →
     text <$> reply tid (messages (handleAgentMessage a st))
     = Some (default "" (text <$> reply tid (messages st)) +:+ content_of evt))
  ∧ (∀ t, t ≠ tid →
       userChunksByTurn (handleAgentMessage a st) !! t = userChunksByTurn st !! t)
  ∧ (∀ i m, messages st !! i = Some m → turnId m ≠ Some tid →
       messages (handleAgentMessage a st) !! i = Some m).
Proof.
  intros a b tid.
  assert (turnId_of a = Some tid) as Ta by reflexivity.
  split; [reflexivity|]. split; [done|]. split; [reflexivity|]. split.
  { intros T. by rewrite (handle_turn_end a tid st T Ta). }
  split.
  { intros D N c C turnMap.
    rewrite (handle_delta a st D), (update_normal a tid c st Ta N C).
    destruct (transcript_record_chunk tid c (content_of evt) st N) as [S M].
    split; [|exact M].
    change (content_of a) with (content_of evt). by rewrite S, lookup_insert_eq. }
  split.
  { intros T N. rewrite (handle_response_text a st T).
    unfold appendAssistantMessage. rewrite Ta.
    cbn [upsertMessage setMessages messages].
    by apply reply_upsert_accumulate. }
  split.
  - intros t Ne. apply handle_store_frame. rewrite Ta. congruence.
  - intros i m L Ne. apply handle_ledger_frame; [done|]. by rewrite Ta.
Qed.

End Overwrite.

Lemma last_write_wins_witness :
  let e1 := delta (Some (Nbr (Num 7))) (Some (Nbr (Num 1))) "old" in
  let e2 := delta (Some (Str "7")) (Some (Str "1")) "new" in
  let st := @run decimal_runtime
              [OnMessage (delta (Some (Str "7")) (Some (Nbr (Num 0))) "a ")] initial in
  let st2 := @handleAgentMessage decimal_runtime e2
               (@handleAgentMessage decimal_runtime e1 st) in
  st2 = @handleAgentMessage decimal_runtime e2 st
  ∧ userChunksByTurn st2 !! "7" = Some [(Num 0, "a "); (Num 1, "new")]
  ∧ (text <$> transcript "7" (messages st2)) = Some "a new"
  ∧ ∀ x, (Num 1, x) ∈ [(Num 0, "a "); (Num 1, "new")] → x = "new".
Proof.
  intros e1 e2 st st2.
  destruct (@last_write_wins decimal_runtime e1 e2 "7" (Num 1) st)
    as (E & S & M & _ & _ & _ & Only);
    [by left|by left|reflexivity|reflexivity|discriminate|reflexivity|reflexivity|].
  split; [exact E|]. split; [exact S|]. split.
  - fold st2 in M. rewrite M. reflexivity.
  - apply Only. apply (bool_decide_unpack _). vm_compute. exact I.
Defined.

Lemma turn_id_coercion_witness :
  let seven := decimal_String (Num 7) in
  let d := with_turn_id (Nbr (Num 7)) (delta None (Some (Nbr (Num 0))) "Hi") in
  let r := with_turn_id (Nbr (Num 7))
             {| type := Some "response.text"; turn_id := None;
                delta_counter := None; content := Some "Hello" |} in
  let e := with_turn_id (Nbr (Num 7))
             {| type := Some "turn.end"; turn_id := None;
                delta_counter := None; content := None |} in
  seven = "7"
  ∧ userChunksByTurn (@handleAgentMessage decimal_runtime d initial) !! "7"
    = Some [(Num 0, "Hi")]
  ∧ (text <$> reply "7" (messages (@handleAgentMessage decimal_runtime r initial)))
    = Some "Hello"
  ∧ userChunksByTurn
      (@handleAgentMessage decimal_runtime e
         (@handleAgentMessage decimal_runtime d initial))
    = delete "7" (userChunksByTurn (@handleAgentMessage decimal_runtime d initial)).
Proof.
  intros seven d r e. split; [reflexivity|]. split; [|split].
  - destruct (@turn_id_coercion decimal_runtime
                (delta None (Some (Nbr (Num 0))) "Hi") (Num 7) initial)
      as (_ & _ & _ & _ & D & _).
    destruct (D (or_introl eq_refl) ltac:(discriminate) (Num 0) eq_refl) as [S _].
    exact S.
  - destruct (@turn_id_coercion decimal_runtime
                {| type := Some "response.text"; turn_id := None;
                   delta_counter := None; content := Some "Hello" |} (Num 7) initial)
      as (_ & _ & _ & _ & _ & R & _).
    exact (R eq_refl ltac:(discriminate)).
  - destruct (@turn_id_coercion decimal_runtime
                {| type := Some "turn.end"; turn_id := None;
                   delta_counter := None; content := None |} (Num 7)
                (@handleAgentMessage decimal_runtime d initial))
      as (_ & _ & _ & E & _).
    destruct (E eq_refl) as [S _]. exact S.
Defined.
